(** * gdb command settings, command lookup and command repetition

    A shallow embedding of [gdb/command.h] (the [var_types] kinds, the
    [detail::var_types_storage] and [detail::var_types_have_same_storage]
    templates, [base_param_ref] and [param_ref]) and of
    [c_get_mode_for_size], [load_libcompile], [get_compile_context],
    [print_one_macro], [write_macro_definitions],
    [generate_register_struct], the policy classes and
    [compile_program::compute] in [gdb/compile/compile-c-support.c].  The
    matcher [lookup_cmd_1] and
    the repetition functions, which command.h declares and other files
    define, are modelled from their description (modules [Lookup] and
    [Repeat]).

    Conventions of the embedding:
    - a C++ call either returns or stops the program; [outcome] records
      which, with one constructor per way of stopping;
    - the variables that settings point to live in a [heap] indexed by
      address, so that two references to one variable alias;
    - a template parameter pack [Ts...] is a head [T] and a tail [Us],
      since the templates have no instance for the empty pack. *)

From stdpp Require Import base decidable option list gmap strings pretty.
From Stdlib Require Import ZArith Lia.
From Equations Require Import Equations.

Local Open Scope Z_scope.
Set Warnings "-register-all".

(** ** Outcomes of a call *)

(** The ways in which a call does not return normally. *)
Inductive fault : Type :=
| assertion_failed
    (* gdb_assert (cond) with cond false *)
| internal_error (fmt : string) (arg : Z)
    (* internal_error (__FILE__, __LINE__, fmt, arg) *)
| usage_error
    (* error (...): reported to the user, the session goes on *)
| undefined_behaviour.
    (* no meaning in C++: access through a dangling or mistyped pointer *)

Inductive outcome (A : Type) : Type :=
| Returns (a : A)
| Faults (f : fault).
Arguments Returns {A} a.
Arguments Faults {A} f.

#[global] Instance outcome_ret : MRet outcome := fun A a => Returns a.
#[global] Instance outcome_bind : MBind outcome := fun A B k m =>
  match m with
  | Returns a => k a
  | Faults f => Faults f
  end.

(** Modelled from the spec: the [gdb_assert] macro (gdbsupport/gdb_assert.h is
    not among the sources).  The spec calls a failed check a
    "programming-error fault (assertion or fatal error)": the call stops
    there and nothing after the check runs. *)
Definition gdb_assert (cond : bool) : outcome unit :=
  if cond then Returns tt else Faults assertion_failed.

Module Command.

(** ** Kinds of settings: [enum var_types] *)

Inductive var_types : Type :=
| var_boolean
| var_auto_boolean
| var_uinteger
| var_integer
| var_string
| var_string_noescape
| var_optional_filename
| var_filename
| var_zinteger
| var_zuinteger
| var_zuinteger_unlimited
| var_enum.

#[global] Instance var_types_eq_dec : EqDecision var_types.
Proof. solve_decision. Defined.

(** Modelled from the spec: [enum auto_boolean] (declared in defs.h, which is
    not among the sources), the "tri-state-auto-boolean" of the data model. *)
Inductive auto_boolean : Type :=
| AUTO_BOOLEAN_TRUE
| AUTO_BOOLEAN_FALSE
| AUTO_BOOLEAN_AUTO.

(** The C++ types a setting is stored in: the distinct [type] members of the
    [var_types_storage] specialisations, which are also the six members of
    the [param_getter] and [param_setter] unions. *)
Inductive storage_type : Type :=
| ty_bool            (* bool *)
| ty_auto_boolean    (* auto_boolean *)
| ty_uint            (* unsigned int *)
| ty_int             (* int *)
| ty_string          (* std::string *)
| ty_const_char_p.   (* const char * *)

#[global] Instance storage_type_eq_dec : EqDecision storage_type.
Proof. solve_decision. Defined.

(** [detail::var_types_storage<T>::type] *)
Definition var_types_storage (T : var_types) : storage_type :=
  match T with
  | var_boolean => ty_bool
  | var_auto_boolean => ty_auto_boolean
  | var_uinteger => ty_uint
  | var_integer => ty_int
  | var_string => ty_string
  | var_string_noescape => ty_string
  | var_optional_filename => ty_string
  | var_filename => ty_string
  | var_zinteger => ty_int
  | var_zuinteger => ty_uint
  | var_zuinteger_unlimited => ty_int
  | var_enum => ty_const_char_p
  end.

(** [std::is_same<A, B>::value] *)
Definition is_same (a b : storage_type) : bool := bool_decide (a = b).

(** [detail::var_types_have_same_storage<T, Us...>::value], one branch per
    specialisation: one parameter, exactly two, three or more. *)
Fixpoint have_same_storage_value (T : var_types) (Us : list var_types) : bool :=
  match Us with
  | [] => true
  | [U] => is_same (var_types_storage T) (var_types_storage U)
  | U :: Us' =>
      is_same (var_types_storage T) (var_types_storage U)
      && have_same_storage_value T Us'
  end.

(** [detail::var_types_have_same_storage<T, Us...>::type] *)
Definition have_same_storage_type (T : var_types) (Us : list var_types)
  : storage_type :=
  var_types_storage T.

(** [detail::var_types_have_same_storage<T, Us...>::covers_type (t)] *)
Fixpoint covers_type (T : var_types) (Us : list var_types) (t : var_types)
  : bool :=
  match Us with
  | [] => bool_decide (t = T)
  | [U] => bool_decide (t = T) || bool_decide (t = U)
  | U :: Us' => bool_decide (t = T) || covers_type U Us' t
  end.

(** [var_type_uses_string] *)
Definition var_type_uses_string (var_type : var_types) : bool :=
  bool_decide (var_type = var_string)
  || bool_decide (var_type = var_string_noescape)
  || bool_decide (var_type = var_optional_filename)
  || bool_decide (var_type = var_filename).

(** The kinds that the data model calls string-like, and the ones it calls
    zero-capable integers. *)
Definition string_kinds : list var_types :=
  [var_string; var_string_noescape; var_optional_filename; var_filename].
Definition zero_capable_kinds : list var_types :=
  [var_zinteger; var_zuinteger; var_zuinteger_unlimited].

(** ** Values and memory *)

(** A data pointer: an address, [nullptr] being address 0.  The type of the
    variable an address holds is a fact about the [heap], as for a [void *]. *)
Abbreviation pointer := N.
Definition nullptr : pointer := 0%N.

(** The values of each storage type.  [int] and [unsigned int] values are
    integers (the setting code only moves them, it does no arithmetic), a
    [const char *] is the address of the enumerator's name. *)
Definition storage_sem (ty : storage_type) : Type :=
  match ty with
  | ty_bool => bool
  | ty_auto_boolean => auto_boolean
  | ty_uint => Z
  | ty_int => Z
  | ty_string => string
  | ty_const_char_p => pointer
  end.

(** A variable in memory: its type and its current value. *)
Abbreviation object := (sigT storage_sem).

(** The variables of the registering modules, by address. *)
Abbreviation heap := (gmap pointer object).

(** [static_cast] of a value between storage types: the identity when the
    two types are the same type, no value otherwise. *)
Definition cast_to {F : storage_type → Type} {a : storage_type} (b : storage_type)
    (x : F a) : option (F b) :=
  match decide (a = b) with
  | left e => Some (eq_rect a F x b e)
  | right _ => None
  end.

(** [*static_cast<T const *> (p)]: reading the variable at [p] as a [T]. *)
Definition deref (ty : storage_type) (p : pointer) (h : heap)
  : outcome (storage_sem ty) :=
  match h !! p with
  | Some o =>
      match cast_to (F := storage_sem) ty (projT2 o) with
      | Some y => Returns y
      | None => Faults undefined_behaviour
      end
  | None => Faults undefined_behaviour
  end.

(** [*static_cast<T *> (p) = v]: assigning to the variable at [p] as a [T]. *)
Definition assign (ty : storage_type) (p : pointer) (v : storage_sem ty)
    (h : heap) : outcome heap :=
  match h !! p with
  | Some o =>
      if decide (projT1 o = ty) then Returns (<[p := existT ty v]> h)
      else Faults undefined_behaviour
  | None => Faults undefined_behaviour
  end.

(** ** Accessor functions *)

(** [accessor_sigs<T>::getter], a pointer to a function of no argument
    returning a [T], reads the program state; [accessor_sigs<T>::setter], a
    pointer to a function of one [T] returning nothing, changes it. *)
Definition getter_sig (ty : storage_type) : Type := heap → storage_sem ty.
Definition setter_sig (ty : storage_type) : Type :=
  storage_sem ty → heap → heap.

(** [union param_getter] and [union param_setter]: one function pointer,
    seen through six members.  [None] is the null pointer, whichever member
    wrote it; [Some (existT ty f)] points to the function [f], stored
    through the member of type [ty]. *)
Definition param_getter : Type := option (sigT getter_sig).
Definition param_setter : Type := option (sigT setter_sig).

(** What a member of the union reads as: null, a function of the member's
    own signature, or a non-null pointer stored through another member. *)
Inductive funptr (A : Type) : Type :=
| null_fn
| good_fn (f : A)
| punned_fn.
Arguments null_fn {A}.
Arguments good_fn {A} f.
Arguments punned_fn {A}.

(** [fp != nullptr] *)
Definition not_null {A : Type} (fp : funptr A) : bool :=
  match fp with
  | null_fn => false
  | _ => true
  end.

(** [detail::accessor_helper<T>::getter (getters)] read as a value *)
Definition accessor_helper_getter (ty : storage_type) (getters : param_getter)
  : funptr (getter_sig ty) :=
  match getters with
  | None => null_fn
  | Some (existT ty' f) =>
      match cast_to (F := getter_sig) ty f with
      | Some g => good_fn g
      | None => punned_fn
      end
  end.

(** [detail::accessor_helper<T>::setter (setters)] read as a value *)
Definition accessor_helper_setter (ty : storage_type) (setters : param_setter)
  : funptr (setter_sig ty) :=
  match setters with
  | None => null_fn
  | Some (existT ty' f) =>
      match cast_to (F := setter_sig) ty f with
      | Some g => good_fn g
      | None => punned_fn
      end
  end.

(** The call through [getter], with no argument. *)
Definition call_getter {ty : storage_type} (getter : funptr (getter_sig ty))
    (h : heap) : outcome (storage_sem ty) :=
  match getter with
  | good_fn f => Returns (f h)
  | _ => Faults undefined_behaviour
  end.

(** The call through [setter], with argument [v]. *)
Definition call_setter {ty : storage_type} (setter : funptr (setter_sig ty))
    (v : storage_sem ty) (h : heap) : outcome heap :=
  match setter with
  | good_fn f => Returns (f v h)
  | _ => Faults undefined_behaviour
  end.

(** ** [struct base_param_ref] *)

Record base_param_ref : Type := mk_param_ref {
  m_var_type : var_types;
  m_var : pointer;
  m_getter : param_getter;
  m_setter : param_setter;
}.

(** The default member initialisers: a freshly constructed setting. *)
Definition fresh : base_param_ref :=
  {| m_var_type := var_boolean;
     m_var := nullptr;
     m_getter := None;
     m_setter := None |}.

(** [base_param_ref::type] *)
Definition type (s : base_param_ref) : var_types := m_var_type s.

(** [base_param_ref::empty] *)
Definition empty (s : base_param_ref) : bool := bool_decide (m_var s = nullptr).

(** [base_param_ref::get_p<T, Us...>] *)
Definition get_p (T : var_types) (Us : list var_types) (s : base_param_ref)
  : outcome pointer :=
  gdb_assert (covers_type T Us (m_var_type s)) ;;
  gdb_assert (negb (empty s)) ;;
  mret (m_var s).

(** [base_param_ref::get<T, Us...>] *)
Definition get (T : var_types) (Us : list var_types) (s : base_param_ref)
    (h : heap) : outcome (storage_sem (have_same_storage_type T Us)) :=
  gdb_assert (covers_type T Us (m_var_type s)) ;;
  let getter :=
    accessor_helper_getter (have_same_storage_type T Us) (m_getter s) in
  if not_null getter then call_getter getter h
  else p ← get_p T Us s; deref (have_same_storage_type T Us) p h.

(** [base_param_ref::set<T, Us...>]; the call changes variables, never the
    setting itself. *)
Definition set (T : var_types) (Us : list var_types)
    (v : storage_sem (have_same_storage_type T Us)) (s : base_param_ref)
    (h : heap) : outcome heap :=
  gdb_assert (covers_type T Us (m_var_type s)) ;;
  let setter :=
    accessor_helper_setter (have_same_storage_type T Us) (m_setter s) in
  if not_null setter then call_setter setter v h
  else
    gdb_assert (negb (empty s)) ;;
    assign (have_same_storage_type T Us) (m_var s) v h.

(** A [set_param_ftype<T>] or [get_param_ftype<T>] argument: a function of
    the signature of [T]'s storage, or a null pointer. *)
Definition set_param_ftype (T : var_types) : Type :=
  option (setter_sig (var_types_storage T)).
Definition get_param_ftype (T : var_types) : Type :=
  option (getter_sig (var_types_storage T)).

(** [base_param_ref::set_accessors<T>] *)
Definition set_accessors (T : var_types) (setter : set_param_ftype T)
    (getter : get_param_ftype T) (s : base_param_ref) : base_param_ref :=
  {| m_var_type := T;
     m_var := m_var s;
     m_getter := existT (var_types_storage T) <$> getter;
     m_setter := existT (var_types_storage T) <$> setter |}.

(** [base_param_ref::operator bool]; both unions are read through their
    [bool] member, which is null exactly when the stored pointer is. *)
Definition operator_bool (s : base_param_ref) : bool :=
  (not_null (accessor_helper_getter ty_bool (m_getter s))
   && not_null (accessor_helper_setter ty_bool (m_setter s)))
  || negb (empty s).

(** ** [struct param_ref] *)

(** [param_ref::set_type] *)
Definition set_type (type : var_types) (s : base_param_ref)
  : outcome base_param_ref :=
  gdb_assert (empty s) ;;
  mret {| m_var_type := type;
          m_var := m_var s;
          m_getter := m_getter s;
          m_setter := m_setter s |}.

(** [param_ref::set_p<T>] *)
Definition set_p (T : var_types) (v : pointer) (s : base_param_ref)
  : outcome base_param_ref :=
  gdb_assert (negb (bool_decide (v = nullptr))) ;;
  s' ← set_type T s;
  mret {| m_var_type := m_var_type s';
          m_var := v;
          m_getter := m_getter s';
          m_setter := m_setter s' |}.

(** ** Sequences of binding calls on one setting *)

(** A call of one of the two member functions that bind storage. *)
Inductive binding : Type :=
| call_set_p (T : var_types) (v : pointer)
| call_set_accessors (T : var_types) (setter : set_param_ftype T)
    (getter : get_param_ftype T).

Definition run_binding (b : binding) (s : base_param_ref)
  : outcome base_param_ref :=
  match b with
  | call_set_p T v => set_p T v s
  | call_set_accessors T setter getter =>
      mret (set_accessors T setter getter s)
  end.

(** The calls of [bs] in order, stopping at the first that faults. *)
Fixpoint run_bindings (bs : list binding) (s : base_param_ref)
  : outcome base_param_ref :=
  match bs with
  | [] => mret s
  | b :: bs' => s' ← run_binding b s; run_bindings bs' s'
  end.

Definition is_set_p (b : binding) : bool :=
  match b with
  | call_set_p _ _ => true
  | call_set_accessors _ _ _ => false
  end.

(** The pointer argument of the first [set_p] call of [bs], [nullptr] when
    there is none. *)
Fixpoint bound_cell (bs : list binding) : pointer :=
  match bs with
  | [] => nullptr
  | call_set_p _ v :: _ => v
  | call_set_accessors _ _ _ :: bs' => bound_cell bs'
  end.

(** The unions as the last [set_accessors] call of [bs] leaves them, both
    null when there is none. *)
Fixpoint bound_accessors (bs : list binding) (acc : param_getter * param_setter)
  : param_getter * param_setter :=
  match bs with
  | [] => acc
  | call_set_p _ _ :: bs' => bound_accessors bs' acc
  | call_set_accessors T setter getter :: bs' =>
      bound_accessors bs'
        (existT (var_types_storage T) <$> getter,
         existT (var_types_storage T) <$> setter)
  end.

(** Both a getter and a setter are stored: the first disjunct of
    [operator bool]. *)
Definition has_accessor_pair (s : base_param_ref) : bool :=
  not_null (accessor_helper_getter ty_bool (m_getter s))
  && not_null (accessor_helper_setter ty_bool (m_setter s)).

(** The setting [s] with its cell pointer replaced by [q]. *)
Definition with_m_var (q : pointer) (s : base_param_ref) : base_param_ref :=
  {| m_var_type := m_var_type s;
     m_var := q;
     m_getter := m_getter s;
     m_setter := m_setter s |}.

(** ** Sample settings *)

(** A module with one [std::string] variable at address 16 and its setting,
    registered as [var_filename]. *)
Definition sample_heap : heap := {[ 16%N := existT ty_string "a.out" ]}.
Definition sample_cell_setting : base_param_ref :=
  {| m_var_type := var_filename;
     m_var := 16%N;
     m_getter := None;
     m_setter := None |}.

(** A [bool] setting served by accessors: the getter reads the variable at
    address 8 as "is it non-zero", the setter stores 0 or 1 there. *)
Definition sample_getter : getter_sig ty_bool :=
  λ h, match h !! 8%N with
       | Some (existT ty_int z) => negb (z =? 0)
       | _ => false
       end.
Definition sample_setter : setter_sig ty_bool :=
  λ v h, <[ 8%N := existT ty_int (if v then 1 else 0) ]> h.
Definition sample_accessor_setting : base_param_ref :=
  set_accessors var_boolean (Some sample_setter) (Some sample_getter) fresh.

(** The same setting registered with the getter alone. *)
Definition sample_getter_only_setting : base_param_ref :=
  set_accessors var_boolean None (Some sample_getter) fresh.

End Command.

Module CompileCSupport.

(** ** [c_get_mode_for_size] and the mode loop of [compile_program::compute] *)

(** A [const char *] to a string literal, or [NULL]. *)
Definition c_string : Type := option string.
Definition NULL : c_string := None.

(** [c_get_mode_for_size]; [mode] starts as [NULL], the [switch] assigns it
    or raises the internal error, and the function returns [mode]. *)
Definition c_get_mode_for_size (size : Z) : outcome c_string :=
  let mode := NULL in
  mode ←
    match size with
    | 1 => mret (Some "QI")
    | 2 => mret (Some "HI")
    | 4 => mret (Some "SI")
    | 8 => mret (Some "DI")
    | _ => Faults (internal_error "Invalid GCC mode size %d." size)
    end;
  mret mode.

(** The newline character of the format strings. *)
Definition newline : string := String (Ascii.ascii_of_nat 10) EmptyString.

(** The text that the [fprintf_unfiltered] call of the loop writes for
    [mode]. *)
Definition typedef_line (mode : string) : string :=
  "typedef int __attribute__ ((__mode__(__" +:+ mode +:+ "__))) __gdb_int_"
  +:+ mode +:+ ";" +:+ newline.

(** One iteration of the loop of [compute], on the text written to [buf] so
    far. *)
Definition mode_loop_body (i : Z) (buf : string) : outcome string :=
  mode ← c_get_mode_for_size (Z.shiftl 1 i);
  gdb_assert (bool_decide (mode ≠ NULL)) ;;
  mret (buf +:+ typedef_line (default "" mode)).

(** [for (int i = lo; i < hi; ++i) body], the iterations left being counted
    by [n]. *)
Fixpoint for_loop (n : nat) (i : Z) (body : Z → string → outcome string)
    (buf : string) : outcome string :=
  match n with
  | O => mret buf
  | S n' => buf' ← body i buf; for_loop n' (i + 1) body buf'
  end.

(** [for (int i = 0; i < 4; ++i) ...] in [compile_program::compute] *)
Definition mode_loop (buf : string) : outcome string :=
  for_loop (Z.to_nat (4 - 0)) 0 mode_loop_body buf.

(** ** Text written to a [ui_file] *)

(** A [ui_file] that collects text is the text written to it so far;
    [fputs_unfiltered], [fputs_filtered] and the [fprintf] calls append. *)
Definition double_quote : string := String (Ascii.ascii_of_nat 34) EmptyString.

(** The string-literal macros of compile-internal.h and gcc-interface.h,
    which are not among the sources: they are parameters of the text. *)
Record compile_macros : Type := mk_macros {
  GCC_FE_WRAPPER_FUNCTION : string;
  COMPILE_I_SIMPLE_REGISTER_STRUCT_TAG : string;
  COMPILE_I_SIMPLE_REGISTER_ARG_NAME : string;
  COMPILE_I_SIMPLE_REGISTER_DUMMY : string;
  COMPILE_I_PRINT_OUT_ARG_TYPE : string;
  COMPILE_I_PRINT_OUT_ARG : string;
  COMPILE_I_EXPR_VAL : string;
  COMPILE_I_EXPR_PTR_TYPE : string;
}.

(** ** [print_one_macro] and [write_macro_definitions] *)

(** The fields of [struct macro_definition] (macrotab.h, not among the
    sources) that [print_one_macro] reads. *)
Inductive macro_kind : Type :=
| macro_object_like
| macro_function_like.

Record macro_definition : Type := mk_macro {
  kind : macro_kind;
  argc : Z;
  argv : list string;
  replacement : string;
}.

(** [array[i]] for an array of [list] elements; an index outside the array
    has no defined meaning. *)
Definition array_get {A : Type} (array : list A) (i : Z) : outcome A :=
  if bool_decide (0 ≤ i) then
    match array !! Z.to_nat i with
    | Some a => Returns a
    | None => Faults undefined_behaviour
    end
  else Faults undefined_behaviour.

(** The body of the argument loop of [print_one_macro]. *)
Definition print_macro_arg (macro : macro_definition) (i : Z) (file : string)
  : outcome string :=
  arg ← array_get (argv macro) i;
  let file := file +:+ arg in
  mret (if bool_decide (i + 1 < argc macro) then file +:+ ", " else file).

(** [print_one_macro] *)
Definition print_one_macro (name : string) (macro : macro_definition)
    (line : Z) (file : string) : outcome string :=
  if bool_decide (line = 0) then mret file
  else
    let file :=
      file +:+ "#ifndef " +:+ name +:+ newline +:+ "# define " +:+ name in
    file ←
      match kind macro with
      | macro_function_like =>
          let file := file +:+ "(" in
          file ← for_loop (Z.to_nat (argc macro - 0)) 0
                   (print_macro_arg macro) file;
          mret (file +:+ ")")
      | macro_object_like => mret file
      end;
    mret (file +:+ " " +:+ replacement macro +:+ newline +:+ "#endif"
          +:+ newline).

(** A macro that [macro_for_each_in_scope] passes to its callback: the
    name, the definition and the line of the definition. *)
Record macro_entry : Type := mk_macro_entry {
  macro_name : string;
  macro_def : macro_definition;
  macro_line : Z;
}.

(** [macro_for_each_in_scope (..., print_one_macro, file)] over the macros
    in scope. *)
Fixpoint print_macros (macros : list macro_entry) (file : string)
  : outcome string :=
  match macros with
  | [] => mret file
  | e :: macros' =>
      file' ← print_one_macro (macro_name e) (macro_def e) (macro_line e) file;
      print_macros macros' file'
  end.

(** [write_macro_definitions]; which scope the block and the pc select is
    decided by functions of other files, so the argument is the outcome of
    that choice: [None] when no scope with a macro table is found, the
    macros in scope otherwise. *)
Definition write_macro_definitions (scope : option (list macro_entry))
    (file : string) : outcome string :=
  match scope with
  | Some macros => print_macros macros file
  | None => mret file
  end.

(** ** [generate_register_struct] *)

(** [TYPE_CODE (regtype)], as far as the [switch] tells the codes apart. *)
Inductive type_code : Type :=
| TYPE_CODE_PTR
| TYPE_CODE_INT
| TYPE_CODE_other.

(** What the architecture says of one register: the mangled name from
    [compile_register_name_mangled] and the code, length and signedness of
    [check_typedef (register_type (gdbarch, i))]. *)
Record register_desc : Type := mk_register {
  regname : string;
  reg_code : type_code;
  reg_length : Z;
  reg_unsigned : bool;
}.

(** The fallback of the [switch]: an aligned array of bytes. *)
Definition register_as_array (r : register_desc) (stream : string) : string :=
  stream +:+ "  unsigned char " +:+ regname r +:+ "[" +:+ pretty (reg_length r)
  +:+ "] __attribute__((__aligned__(__BIGGEST_ALIGNMENT__)))".

(** The body of the register loop for a register that is used. *)
Definition register_field (r : register_desc) (stream : string)
  : outcome string :=
  let stream := stream +:+ "  " in
  stream ←
    match reg_code r with
    | TYPE_CODE_PTR => mret (stream +:+ "__gdb_uintptr " +:+ regname r)
    | TYPE_CODE_INT =>
        mode ← c_get_mode_for_size (reg_length r);
        match mode with
        | Some mode =>
            let stream :=
              if reg_unsigned r then stream +:+ "unsigned " else stream in
            mret (stream +:+ "int " +:+ regname r
                  +:+ " __attribute__ ((__mode__(__" +:+ mode +:+ "__)))")
        | None => mret (register_as_array r stream)   (* fall through *)
        end
    | TYPE_CODE_other => mret (register_as_array r stream)
    end;
  mret (stream +:+ ";" +:+ newline).

(** The register loop, on the registers from index [i] on; the state is the
    text written and the [seen] flag. *)
Fixpoint register_loop (registers_used : list Z) (i : Z)
    (regs : list register_desc) (st : string * bool)
  : outcome (string * bool) :=
  match regs with
  | [] => mret st
  | r :: regs' =>
      used ← array_get registers_used i;
      st' ←
        (if bool_decide (used ≠ 0) then
           stream ← register_field r st.1; mret (stream, true)
         else mret st);
      register_loop registers_used (i + 1) regs' st'
  end.

(** [generate_register_struct]; [gdbarch] is the list of the architecture's
    registers, [registers_used] the byte array or [NULL]. *)
Definition generate_register_struct (m : compile_macros)
    (gdbarch : list register_desc) (registers_used : option (list Z))
    (stream : string) : outcome string :=
  let seen := false in
  let stream :=
    stream +:+ "struct " +:+ COMPILE_I_SIMPLE_REGISTER_STRUCT_TAG m +:+ " {"
    +:+ newline in
  '(stream, seen) ←
    match registers_used return outcome (string * bool) with
    | Some used => register_loop used 0 gdbarch (stream, seen)
    | None => mret (stream, seen)
    end;
  let stream :=
    if (seen : bool) then stream
    else stream +:+ "  char " +:+ COMPILE_I_SIMPLE_REGISTER_DUMMY m +:+ ";"
         +:+ newline in
  mret (stream +:+ "};" +:+ newline +:+ newline).

(** ** The policies and [compile_program::compute] *)

(** The values of [enum compile_i_scope_types] (compile-internal.h, not
    among the sources): the four that the file names, and
    [COMPILE_I_INVALID_SCOPE] for any other value. *)
Inductive compile_i_scope_types : Type :=
| COMPILE_I_INVALID_SCOPE
| COMPILE_I_SIMPLE_SCOPE
| COMPILE_I_RAW_SCOPE
| COMPILE_I_PRINT_ADDRESS_SCOPE
| COMPILE_I_PRINT_VALUE_SCOPE.

#[global] Instance compile_i_scope_types_eq_dec
  : EqDecision compile_i_scope_types.
Proof. solve_decision. Defined.

(** [gdb_assert_not_reached (...)] *)
Definition gdb_assert_not_reached {A : Type} : outcome A :=
  Faults assertion_failed.

(** [c_push_user_expression::push_user_expression] *)
Definition c_push_user_expression (buf : string) : string :=
  buf +:+ "#pragma GCC user_expression" +:+ newline.

(** [pop_user_expression_nop::pop_user_expression] *)
Definition pop_user_expression_nop (buf : string) : string := buf.

(** [cplus_push_user_expression::push_user_expression] *)
Definition cplus_push_user_expression (buf : string) : string :=
  buf +:+ "#pragma GCC push_user_expression" +:+ newline.

(** [cplus_pop_user_expression::pop_user_expression] *)
Definition cplus_pop_user_expression (buf : string) : string :=
  buf +:+ "#pragma GCC pop_user_expression" +:+ newline.

(** The declaration of the wrapper function with the register argument
    alone. *)
Definition simple_wrapper (m : compile_macros) : string :=
  "void " +:+ GCC_FE_WRAPPER_FUNCTION m +:+ " (struct "
  +:+ COMPILE_I_SIMPLE_REGISTER_STRUCT_TAG m +:+ " *"
  +:+ COMPILE_I_SIMPLE_REGISTER_ARG_NAME m +:+ ") {" +:+ newline.

(** The declaration of the wrapper function with the output argument. *)
Definition print_wrapper (m : compile_macros) : string :=
  "void " +:+ GCC_FE_WRAPPER_FUNCTION m +:+ " (struct "
  +:+ COMPILE_I_SIMPLE_REGISTER_STRUCT_TAG m +:+ " *"
  +:+ COMPILE_I_SIMPLE_REGISTER_ARG_NAME m +:+ ", "
  +:+ COMPILE_I_PRINT_OUT_ARG_TYPE m +:+ " " +:+ COMPILE_I_PRINT_OUT_ARG m
  +:+ ") {" +:+ newline.

(** [c_add_code_header::add_code_header] *)
Definition c_add_code_header (m : compile_macros)
    (type : compile_i_scope_types) (buf : string) : outcome string :=
  match type with
  | COMPILE_I_SIMPLE_SCOPE => mret (buf +:+ simple_wrapper m)
  | COMPILE_I_PRINT_ADDRESS_SCOPE
  | COMPILE_I_PRINT_VALUE_SCOPE =>
      mret (buf +:+ "#include <string.h>" +:+ newline +:+ print_wrapper m)
  | COMPILE_I_RAW_SCOPE => mret buf
  | _ => gdb_assert_not_reached
  end.

(** [c_add_code_footer::add_code_footer] *)
Definition c_add_code_footer (type : compile_i_scope_types) (buf : string)
  : outcome string :=
  match type with
  | COMPILE_I_SIMPLE_SCOPE
  | COMPILE_I_PRINT_ADDRESS_SCOPE
  | COMPILE_I_PRINT_VALUE_SCOPE => mret (buf +:+ "}" +:+ newline)
  | COMPILE_I_RAW_SCOPE => mret buf
  | _ => gdb_assert_not_reached
  end.

(** [c_add_input::add_input] *)
Definition c_add_input (m : compile_macros) (type : compile_i_scope_types)
    (input : string) (buf : string) : string :=
  let buf :=
    match type with
    | COMPILE_I_PRINT_ADDRESS_SCOPE
    | COMPILE_I_PRINT_VALUE_SCOPE =>
        buf +:+ "__auto_type " +:+ COMPILE_I_EXPR_VAL m +:+ " = " +:+ input
        +:+ ";" +:+ newline
        +:+ "typeof (" +:+ input +:+ ") *" +:+ COMPILE_I_EXPR_PTR_TYPE m
        +:+ ";" +:+ newline
        +:+ "memcpy (" +:+ COMPILE_I_PRINT_OUT_ARG m +:+ ", "
        +:+ (if bool_decide (type = COMPILE_I_PRINT_ADDRESS_SCOPE)
             then "&" else "")
        +:+ COMPILE_I_EXPR_VAL m +:+ "," +:+ newline
        +:+ "sizeof (*" +:+ COMPILE_I_EXPR_PTR_TYPE m +:+ "));" +:+ newline
    | _ => buf +:+ input
    end in
  buf +:+ newline.

(** [cplus_add_code_header::add_code_header] *)
Definition cplus_add_code_header (m : compile_macros)
    (type : compile_i_scope_types) (buf : string) : outcome string :=
  match type with
  | COMPILE_I_SIMPLE_SCOPE => mret (buf +:+ simple_wrapper m)
  | COMPILE_I_PRINT_ADDRESS_SCOPE
  | COMPILE_I_PRINT_VALUE_SCOPE =>
      mret (buf +:+ "#include <cstring>" +:+ newline
            +:+ "#include <bits/move.h>" +:+ newline +:+ print_wrapper m)
  | COMPILE_I_RAW_SCOPE => mret buf
  | _ => gdb_assert_not_reached
  end.

(** [cplus_add_input::add_input] *)
Definition cplus_add_input (m : compile_macros) (type : compile_i_scope_types)
    (input : string) (buf : string) : string :=
  let buf :=
    match type with
    | COMPILE_I_PRINT_ADDRESS_SCOPE
    | COMPILE_I_PRINT_VALUE_SCOPE =>
        buf +:+ "auto " +:+ COMPILE_I_EXPR_VAL m +:+ " = " +:+ input
        +:+ ";" +:+ newline
        +:+ "decltype ( " +:+ input +:+ " ) *" +:+ COMPILE_I_EXPR_PTR_TYPE m
        +:+ ";" +:+ newline
        +:+ "std::memcpy (" +:+ COMPILE_I_PRINT_OUT_ARG m +:+ ", "
        +:+ (if bool_decide (type = COMPILE_I_PRINT_ADDRESS_SCOPE)
             then "std::__addressof" else "")
        +:+ " (" +:+ COMPILE_I_EXPR_VAL m +:+ ")," +:+ newline
        +:+ "sizeof (decltype(" +:+ input +:+ ")));" +:+ newline
    | _ => buf +:+ input
    end in
  buf +:+ newline.

(** The five policy classes that [compile_program] derives from. *)
Record program_policies : Type := mk_policies {
  push_user_expression : string → string;
  pop_user_expression : string → string;
  add_code_header : compile_i_scope_types → string → outcome string;
  add_code_footer : compile_i_scope_types → string → outcome string;
  add_input : compile_i_scope_types → string → string → string;
}.

(** [c_compile_program] and [cplus_compile_program] *)
Definition c_compile_program (m : compile_macros) : program_policies :=
  mk_policies c_push_user_expression pop_user_expression_nop
    (c_add_code_header m) c_add_code_footer (c_add_input m).
Definition cplus_compile_program (m : compile_macros) : program_policies :=
  mk_policies cplus_push_user_expression cplus_pop_user_expression
    (cplus_add_code_header m) c_add_code_footer (cplus_add_input m).

(** [strchr (input, '\n') != NULL] *)
Fixpoint has_newline (input : string) : bool :=
  match input with
  | EmptyString => false
  | String c input' =>
      bool_decide (c = Ascii.ascii_of_nat 10) || has_newline input'
  end.

(** The scopes for which [compute] wraps the user's code in a function. *)
Definition wraps_in_function (scope : compile_i_scope_types) : bool :=
  bool_decide (scope = COMPILE_I_SIMPLE_SCOPE)
  || bool_decide (scope = COMPILE_I_PRINT_ADDRESS_SCOPE)
  || bool_decide (scope = COMPILE_I_PRINT_VALUE_SCOPE).

(** What [compute] takes from its surroundings: the scope of the compile
    instance, the registers of the architecture, the text and the register
    array that [generate_c_for_variable_locations] produces (a function of
    another file, taken to have returned) and the macros in scope. *)
Record compute_context : Type := mk_context {
  scope : compile_i_scope_types;
  arch : list register_desc;
  var_locations : string;
  registers_used : option (list Z);
  macro_scope : option (list macro_entry);
}.

(** [compile_program<...>::compute]; the result is the text of [buf]. *)
Definition compute (m : compile_macros) (p : program_policies)
    (ctx : compute_context) (input : string) : outcome string :=
  let buf := EmptyString in
  buf ←
    (if bool_decide (scope ctx ≠ COMPILE_I_RAW_SCOPE) then
       let buf :=
         buf +:+ "typedef unsigned int __attribute__ ((__mode__(__pointer__)))"
         +:+ " __gdb_uintptr;" +:+ newline in
       let buf :=
         buf +:+ "typedef int __attribute__ ((__mode__(__pointer__)))"
         +:+ " __gdb_intptr;" +:+ newline in
       buf ← mode_loop buf;
       generate_register_struct m (arch ctx) (registers_used ctx) buf
     else mret buf);
  buf ← add_code_header p (scope ctx) buf;
  let buf :=
    if wraps_in_function (scope ctx)
    then push_user_expression p (buf +:+ var_locations ctx)
    else buf in
  buf ← write_macro_definitions (macro_scope ctx) buf;
  let buf :=
    if bool_decide (scope ctx ≠ COMPILE_I_RAW_SCOPE)
    then buf +:+ "{" +:+ newline else buf in
  let buf :=
    buf +:+ "#line 1 " +:+ double_quote +:+ "gdb command line"
    +:+ double_quote +:+ newline in
  let buf := add_input p (scope ctx) input buf in
  let buf :=
    if has_newline input then buf else buf +:+ ";" +:+ newline in
  let buf :=
    if bool_decide (scope ctx ≠ COMPILE_I_RAW_SCOPE)
    then buf +:+ "}" +:+ newline else buf in
  let buf :=
    if wraps_in_function (scope ctx) then pop_user_expression p buf else buf in
  add_code_footer p (scope ctx) buf.

(** [c_compute_program] and [cplus_compute_program] *)
Definition c_compute_program (m : compile_macros) (ctx : compute_context)
    (input : string) : outcome string :=
  compute m (c_compile_program m) ctx input.
Definition cplus_compute_program (m : compile_macros) (ctx : compute_context)
    (input : string) : outcome string :=
  compute m (cplus_compile_program m) ctx input.

(** ** Sample macros and registers *)

Definition sample_macros : compile_macros :=
  mk_macros "_gdb_expr" "__gdb_regs" "__regs" "_dummy" "void *"
    "__gdb_out_param" "__gdb_expr_val" "__gdb_expr_ptr_type".

Definition sample_arch : list register_desc :=
  [mk_register "__rax" TYPE_CODE_INT 8 false;
   mk_register "__rip" TYPE_CODE_PTR 8 false;
   mk_register "__eflags" TYPE_CODE_INT 4 true;
   mk_register "__xmm0" TYPE_CODE_other 16 false].

(** ** [load_libcompile] and [get_compile_context] *)

Section compile_context.

(** The plug-in library is outside the program: [gdb_dlopen], which calls
    [error] when it fails, [gdb_dlsym], which may return [NULL], and the
    function that the symbol names, which returns a context or [NULL]. *)
Context {handle gcc_context : Type}.

Definition fe_context_function : Type := Z → Z → option gcc_context.

Variable gdb_dlopen : string → outcome handle.
Variable gdb_dlsym : handle → string → option fe_context_function.

(** [load_libcompile<FUNCTYPE>] *)
Definition load_libcompile (fe_libcc fe_context : string)
  : outcome (option fe_context_function) :=
  handle ← gdb_dlopen fe_libcc;
  let func := gdb_dlsym handle fe_context in
  if bool_decide (func = None :> option fe_context_function)
  then Faults usage_error
  else mret func.

(** [get_compile_context<...>]: the [static] variable [func] is an argument
    and, as it is after the call, a result; an error leaves it as the
    statements executed so far have set it.  The instance returned is the
    context it is constructed from. *)
Definition get_compile_context (fe_libcc fe_context : string)
    (base_version api_version : Z) (func : option fe_context_function)
  : outcome gcc_context * option fe_context_function :=
  let loaded : outcome (option fe_context_function) :=
    if bool_decide (func = None :> option fe_context_function) then
      func ← load_libcompile fe_libcc fe_context;
      gdb_assert (bool_decide (func ≠ None)) ;;
      mret func
    else mret func in
  match loaded with
  | Faults f => (Faults f, func)
  | Returns func =>
      match func with
      | None => (Faults undefined_behaviour, func)
      | Some f =>
          match f base_version api_version with
          | None => (Faults usage_error, func)
          | Some context => (Returns context, func)
          end
      end
  end.

End compile_context.

(** ** Conditions on the data that [compute] is given *)

(** The argument count of a macro is the length of its argument array. *)
Definition macro_well_formed (macro : macro_definition) : Prop :=
  argc macro = Z.of_nat (length (argv macro)).

(** The sizes for which [c_get_mode_for_size] has a mode. *)
Definition mode_sizes : list Z := [1; 2; 4; 8].

(** An integer register has one of the sizes that have a mode. *)
Definition register_supported (r : register_desc) : Prop :=
  reg_code r = TYPE_CODE_INT → reg_length r ∈ mode_sizes.

(** The registers of [regs] that [used] marks, [used] being read from index
    0 on. *)
Definition used_registers (used : list Z) (regs : list register_desc)
  : list register_desc :=
  (filter (λ ur, ur.1 ≠ 0) (zip used regs)).*2.

(** The register array, when there is one, has an entry for every register
    of the architecture and marks supported registers only. *)
Definition registers_ok (ctx : compute_context) : Prop :=
  match registers_used ctx with
  | Some used =>
      (length (arch ctx) ≤ length used)%nat
      ∧ Forall register_supported (used_registers used (arch ctx))
  | None => True
  end.

(** The macros in scope, when there are any, are well formed. *)
Definition macros_ok (ctx : compute_context) : Prop :=
  match macro_scope ctx with
  | Some macros => Forall (λ e, macro_well_formed (macro_def e)) macros
  | None => True
  end.

End CompileCSupport.

Module Lookup.

(** ** The command tree and [lookup_cmd_1] *)

(** Modelled from the spec: the attributes of a CommandNode that the matcher
    reads ([struct cmd_list_element] is only declared in command.h). *)
Record cmd_attrs : Type := mk_attrs {
  name : string;
  func : option nat;        (* the handler; [None] marks a help-class node *)
  allow_abbrev : bool;      (* the abbreviation-allowed flag *)
  default_args : string;
}.

(** Modelled from the spec: the three variants of a CommandNode (the
    definition of [struct cmd_list_element] is in cli/cli-decode.h, which is
    not among the sources).  A prefix owns its child list; an alias refers
    to its target, given here as the target node itself. *)
Inductive cmd_list_element : Type :=
| Leaf (a : cmd_attrs)
| Prefix (a : cmd_attrs) (allow_unknown : bool)
    (subcommands : list cmd_list_element)
| Alias (a : cmd_attrs) (alias_target : cmd_list_element).

Definition attrs (c : cmd_list_element) : cmd_attrs :=
  match c with
  | Leaf a => a
  | Prefix a _ _ => a
  | Alias a _ => a
  end.

(** A node without handler is a help class. *)
Definition is_command_class_help (c : cmd_list_element) : bool :=
  bool_decide (func (attrs c) = None).

(** Modelled from the spec: the cursor is the text that remains; the next
    whitespace-delimited token is found by skipping blanks and taking the
    characters up to the next blank. *)
Definition is_blank (c : Ascii.ascii) : bool :=
  bool_decide (c = Ascii.ascii_of_nat 32)       (* a space *)
  || bool_decide (c = Ascii.ascii_of_nat 9).    (* a tab *)

Fixpoint skip_blanks (s : string) : string :=
  match s with
  | EmptyString => EmptyString
  | String c s' => if is_blank c then skip_blanks s' else s
  end.

(** The longest blank-free prefix of [s], and what follows it. *)
Fixpoint split_token (s : string) : string * string :=
  match s with
  | EmptyString => (EmptyString, EmptyString)
  | String c s' =>
      if is_blank c then (EmptyString, s)
      else (String c (split_token s').1, (split_token s').2)
  end.

(** A token with the cursor at its first character and the cursor past its
    last character. *)
Record word : Type := mk_word {
  token : string;
  at_token : string;
  past_token : string;
}.

Definition next_word (text : string) : option word :=
  let start := skip_blanks text in
  let tr := split_token start in
  if bool_decide (tr.1 = EmptyString) then None
  else Some (mk_word tr.1 start tr.2).

(** More input remains when a further token can be taken. *)
Definition more_input (text : string) : bool :=
  bool_decide (skip_blanks text ≠ EmptyString).

(** Modelled from the spec: the siblings that a token selects.  A sibling is
    a candidate when the token is its name or, if it allows abbreviation, a
    prefix of its name; help-class nodes are left out when the caller asks
    for that; exact matches, when there are any, win over the others. *)
Definition considered (ignore_help_classes : bool) (c : cmd_list_element)
  : bool :=
  negb (ignore_help_classes && is_command_class_help c).

Definition exact_match (tok : string) (c : cmd_list_element) : bool :=
  bool_decide (name (attrs c) = tok).

Definition abbrev_match (tok : string) (c : cmd_list_element) : bool :=
  allow_abbrev (attrs c) && String.prefix tok (name (attrs c)).

Definition candidates (ignore_help_classes : bool) (tok : string)
    (clist : list cmd_list_element) : list cmd_list_element :=
  filter (λ c, considered ignore_help_classes c
               && (exact_match tok c || abbrev_match tok c)) clist.

Definition remaining (ignore_help_classes : bool) (tok : string)
    (clist : list cmd_list_element) : list cmd_list_element :=
  let cs := candidates ignore_help_classes tok clist in
  match filter (λ c, exact_match tok c : bool) cs with
  | [] => cs
  | exact => exact
  end.

(** Modelled from the spec: the default-args text gathered from the aliases
    traversed, in the order they are traversed. *)
Definition accumulate (acc more : string) : string :=
  if bool_decide (acc = EmptyString) then more
  else if bool_decide (more = EmptyString) then acc
  else acc +:+ " " +:+ more.

(** An alias is replaced by its target, transitively, down to a node that
    is not an alias. *)
Fixpoint follow_alias (c : cmd_list_element) (acc : string)
  : cmd_list_element * string :=
  match c with
  | Alias a target => follow_alias target (accumulate acc (default_args a))
  | _ => (c, acc)
  end.

(** The node that the aliases of [c] lead to. *)
Fixpoint base_command (c : cmd_list_element) : cmd_list_element :=
  match c with
  | Alias _ target => base_command target
  | _ => c
  end.

(** Modelled from the spec: the three results of a lookup.  [Unique] carries
    the resolved node, the list it was found in, the cursor past the
    consumed words and the accumulated default args; [Ambiguous] carries
    the enclosing prefix node, if any, and the cursor. *)
Inductive lookup_result : Type :=
| NoMatch
| Unique (c : cmd_list_element) (result_list : list cmd_list_element)
    (text : string) (default_args : string)
| Ambiguous (result_list : option cmd_list_element) (text : string).

Lemma split_token_length (s : string) :
  String.length s
  = (String.length (split_token s).1 + String.length (split_token s).2)%nat.
Proof.
  induction s as [|c s IH]; [reflexivity|].
  simpl. destruct (is_blank c); simpl; [reflexivity|]. rewrite IH. reflexivity.
Defined.

Lemma skip_blanks_length (s : string) :
  (String.length (skip_blanks s) ≤ String.length s)%nat.
Proof.
  induction s as [|c s IH]; [reflexivity|].
  simpl. destruct (is_blank c); simpl; lia.
Defined.

Lemma next_word_shorter (text : string) (w : word) :
  next_word text = Some w →
  (String.length (past_token w) < String.length text)%nat.
Proof.
  unfold next_word. intros Hw.
  destruct (bool_decide_reflect ((split_token (skip_blanks text)).1 = EmptyString))
    as [He|Hne]; [discriminate|].
  injection Hw as <-. simpl.
  pose proof (skip_blanks_length text) as Hs.
  pose proof (split_token_length (skip_blanks text)) as Ht.
  destruct (split_token (skip_blanks text)).1 as [|c t]; [congruence|].
  simpl in Ht. lia.
Defined.

(** A value together with the equation that names it, for the termination
    argument below. *)
Definition inspect {A : Type} (a : A) : {b : A | a = b} := exist _ a eq_refl.

(** Modelled from the spec: the matcher of section 4.3 ([lookup_cmd_1] is
    declared in command.h and defined in cli/cli-decode.c, which is not among
    the sources).  It takes the next token; no token or no remaining sibling
    is [NoMatch]; several remaining siblings are [Ambiguous] at this level;
    one remaining sibling is followed through its aliases and, when it is a
    prefix and more input remains, the lookup goes on in its child list.
    Below a prefix, a lookup that matches nothing leaves the prefix as the
    longest valid path, and an ambiguity reports the innermost prefix. *)
Equations lookup_cmd_1 (ignore_help_classes : bool) (text : string)
    (clist : list cmd_list_element) (default_args : string) : lookup_result
    by wf (String.length text) lt :=
lookup_cmd_1 ign text clist dargs with inspect (next_word text) := {
  | exist _ None _ => NoMatch
  | exist _ (Some w) Hw with remaining ign (token w) clist := {
    | [] => NoMatch
    | [c] with follow_alias c dargs := {
      | (Prefix a allow_unknown subcommands, dargs')
          with more_input (past_token w) := {
        | true with lookup_cmd_1 ign (past_token w) subcommands dargs' := {
          | NoMatch =>
              Unique (Prefix a allow_unknown subcommands) clist
                (past_token w) dargs'
          | Unique c' result_list text' dargs'' =>
              Unique c' result_list text' dargs''
          | Ambiguous None text' =>
              Ambiguous (Some (Prefix a allow_unknown subcommands)) text'
          | Ambiguous (Some p) text' => Ambiguous (Some p) text' }
        | false =>
            Unique (Prefix a allow_unknown subcommands) clist
              (past_token w) dargs' }
      | (found, dargs') => Unique found clist (past_token w) dargs' }
    | _ :: _ :: _ => Ambiguous None (at_token w) } }.
Next Obligation.
  intros. apply (next_word_shorter text w). exact Hw.
Defined.

(** The lookups that meet an ambiguity, told as a walk: from [clist] the
    text leads through the prefix commands of [path], outermost first, each
    one the only sibling left for its token (after its aliases are
    followed) and each one followed by more input, to a token, at cursor
    [cursor], for which several siblings are left. *)
Inductive ambiguous_at (ignore_help_classes : bool)
  : string → list cmd_list_element → list cmd_list_element → string → Prop :=
| ambiguous_here (text : string) (clist : list cmd_list_element) (w : word) :
    next_word text = Some w →
    (2 ≤ length (remaining ignore_help_classes (token w) clist))%nat →
    ambiguous_at ignore_help_classes text clist [] (at_token w)
| ambiguous_below (text : string) (clist : list cmd_list_element) (w : word)
    (c : cmd_list_element) (a : cmd_attrs)
    (allow_unknown : bool) (subcommands path : list cmd_list_element)
    (cursor : string) :
    next_word text = Some w →
    remaining ignore_help_classes (token w) clist = [c] →
    base_command c = Prefix a allow_unknown subcommands →
    more_input (past_token w) = true →
    ambiguous_at ignore_help_classes (past_token w) subcommands path cursor →
    ambiguous_at ignore_help_classes text clist
      (Prefix a allow_unknown subcommands :: path) cursor.

(** ** A sample command tree *)

Definition sample_leaf (n : string) : cmd_list_element :=
  Leaf (mk_attrs n (Some 0%nat) true "").
Definition sample_info : cmd_list_element :=
  Prefix (mk_attrs "info" (Some 1%nat) true "") false
    [sample_leaf "args"; sample_leaf "address"; sample_leaf "types";
     sample_leaf "target"].
Definition sample_root : list cmd_list_element :=
  [sample_leaf "break"; sample_leaf "branch"; sample_info;
   Alias (mk_attrs "i" (Some 1%nat) true "-q") sample_info;
   sample_leaf "r"; sample_leaf "run"].

End Lookup.

Module Repeat.

(** ** Command repetition *)

(** Modelled from the spec: the RepeatState of the data model ([dont_repeat],
    [repeat_previous], [save_command_line], [set_repeat_arguments] and
    [prevent_dont_repeat] are declared in command.h and defined in top.c,
    which is not among the sources).  [suppress_dont_repeat] is the flag
    that the scoped-suppression guard holds. *)
Record RepeatState : Type := mk_repeat {
  saved_line : option string;
  no_repeat : bool;
  repeat_arguments : option string;
  suppress_dont_repeat : bool;
}.

Definition set_no_repeat (b : bool) (st : RepeatState) : RepeatState :=
  mk_repeat (saved_line st) b (repeat_arguments st) (suppress_dont_repeat st).

(** A call that may raise an error and may change the repeat state; the
    state is still there after an error. *)
Definition repeat_call (A : Type) : Type :=
  RepeatState → outcome A * RepeatState.

(** Modelled from the spec: [dont_repeat] sets [no_repeat], and has no
    effect while a suppression guard is held. *)
Definition dont_repeat (st : RepeatState) : RepeatState :=
  if suppress_dont_repeat st then st else set_no_repeat true st.

(** Modelled from the spec: [repeat_previous] "fails (user-visible error) if
    no previous saved line exists; otherwise marks the current command as
    non-repeating (to avoid a repeat-of-a-repeat) and returns the previously
    saved line for the caller to re-dispatch". *)
Definition repeat_previous : repeat_call string :=
  λ st,
    match saved_line st with
    | None => (Faults usage_error, st)
    | Some line => (Returns line, set_no_repeat true st)
    end.

(** Modelled from the spec: [save_command_line] "copies text as the new
    saved_line". *)
Definition save_command_line (cmd : string) (st : RepeatState) : RepeatState :=
  mk_repeat (Some cmd) (no_repeat st) (repeat_arguments st)
    (suppress_dont_repeat st).

(** Modelled from the spec: [set_repeat_arguments] "overrides the argument
    text substituted when this command is repeated". *)
Definition set_repeat_arguments (args : string) (st : RepeatState)
  : RepeatState :=
  mk_repeat (saved_line st) (no_repeat st) (Some args)
    (suppress_dont_repeat st).

(** Modelled from the spec: before a handler is invoked the dispatcher
    "resets RepeatState.no_repeat to false and clears repeat_arguments". *)
Definition reset_for_dispatch (st : RepeatState) : RepeatState :=
  mk_repeat (saved_line st) false None (suppress_dont_repeat st).

(** Modelled from the spec: what the driver replays on an empty input line:
    the saved line, unless the last command refused repetition. *)
Definition replayed_on_empty_line (st : RepeatState) : option string :=
  if no_repeat st then None else saved_line st.

End Repeat.

(** * Properties *)

(** ** The outcome monad *)

Lemma outcome_bind_returns {A B} (k : A → outcome B) (a : A) :
  Returns a ≫= k = k a.
Proof. reflexivity. Qed.

Lemma outcome_bind_faults {A B} (k : A → outcome B) (f : fault) :
  Faults f ≫= k = Faults f.
Proof. reflexivity. Qed.

Lemma outcome_bind_inv {A B} (k : A → outcome B) (m : outcome A) (b : B) :
  m ≫= k = Returns b → ∃ a, m = Returns a ∧ k a = Returns b.
Proof. destruct m as [a|f]; simpl; [eauto | discriminate]. Qed.

Lemma gdb_assert_returns (cond : bool) (u : unit) :
  gdb_assert cond = Returns u ↔ cond = true.
Proof. destruct cond, u; simpl; split; congruence. Qed.

Lemma gdb_assert_faults (cond : bool) (f : fault) :
  gdb_assert cond = Faults f ↔ cond = false ∧ f = assertion_failed.
Proof.
  destruct cond; simpl.
  - split; [discriminate | intros [? _]; discriminate].
  - split; [intros [= <-]; auto | intros [_ ->]; reflexivity].
Qed.

Import Command.

(** ** Kind groups *)

Section kind_groups.

Lemma is_same_true (a b : storage_type) : is_same a b = true ↔ a = b.
Proof. unfold is_same. apply bool_decide_eq_true. Qed.

(** [value] is true exactly when every kind of the pack is stored like the
    first one. *)
Lemma have_same_storage_value_spec (T : var_types) (Us : list var_types) :
  have_same_storage_value T Us = true
  ↔ Forall (λ U, var_types_storage U = var_types_storage T) Us.
Proof.
  induction Us as [|U Us IH].
  - simpl. split; [constructor | reflexivity].
  - destruct Us as [|U' Us'].
    + simpl. rewrite is_same_true, Forall_singleton. split; congruence.
    + change (have_same_storage_value T (U :: U' :: Us'))
        with (is_same (var_types_storage T) (var_types_storage U)
              && have_same_storage_value T (U' :: Us')).
      rewrite andb_true_iff, IH, is_same_true.
      rewrite (Forall_cons _ U (U' :: Us')).
      split; intros [? ?]; split; congruence.
Qed.

(** [covers_type] is membership in the pack. *)
Lemma covers_type_spec (T : var_types) (Us : list var_types) (t : var_types) :
  covers_type T Us t = true ↔ t ∈ T :: Us.
Proof.
  revert T. induction Us as [|U Us IH]; intros T.
  - simpl. rewrite bool_decide_eq_true, list_elem_of_singleton. reflexivity.
  - destruct Us as [|U' Us'].
    + simpl. rewrite orb_true_iff, !bool_decide_eq_true.
      rewrite elem_of_cons, list_elem_of_singleton. reflexivity.
    + change (covers_type T (U :: U' :: Us') t)
        with (bool_decide (t = T) || covers_type U (U' :: Us') t).
      rewrite orb_true_iff, bool_decide_eq_true, IH.
      rewrite (elem_of_cons (U :: U' :: Us')). reflexivity.
Qed.

(** In an instantiable pack, the kind a setting is checked against is
    stored in the pack's [type]. *)
Lemma covered_kind_storage (T : var_types) (Us : list var_types) (t : var_types) :
  have_same_storage_value T Us = true →
  covers_type T Us t = true →
  var_types_storage t = have_same_storage_type T Us.
Proof.
  rewrite have_same_storage_value_spec, covers_type_spec, Forall_forall.
  intros Hall Hin. unfold have_same_storage_type.
  apply elem_of_cons in Hin as [-> | Hin]; [reflexivity | auto].
Qed.

End kind_groups.

(** ** Memory and accessor calls *)

Section memory.

Lemma cast_to_same {F : storage_type → Type} (a : storage_type) (x : F a) :
  cast_to a x = Some x.
Proof.
  unfold cast_to. destruct (decide (a = a)) as [e|ne]; [|congruence].
  f_equal. symmetry. apply Eqdep_dec.eq_rect_eq_dec. intros ? ?. apply decide; apply _.
Qed.

Lemma cast_to_other {F : storage_type → Type} (a b : storage_type) (x : F a) :
  a ≠ b → cast_to b x = None.
Proof. intros Hne. unfold cast_to. destruct (decide (a = b)); congruence. Qed.

Lemma cast_to_is_Some {F : storage_type → Type} (a b : storage_type) (x : F a) :
  is_Some (cast_to b x) ↔ a = b.
Proof.
  split.
  - intros [y Hy]. destruct (decide (a = b)) as [e|ne]; [exact e|].
    rewrite cast_to_other in Hy by exact ne. discriminate.
  - intros <-. rewrite cast_to_same. eauto.
Qed.

(** Reading a variable of the expected type gives its value. *)
Lemma deref_typed (ty : storage_type) (p : pointer) (x : storage_sem ty) (h : heap) :
  h !! p = Some (existT ty x) → deref ty p h = Returns x.
Proof. intros Hp. unfold deref. rewrite Hp. simpl. rewrite cast_to_same. reflexivity. Qed.

(** Assigning to a variable of the expected type replaces its value. *)
Lemma assign_typed (ty : storage_type) (p : pointer) (x v : storage_sem ty) (h : heap) :
  h !! p = Some (existT ty x) →
  assign ty p v h = Returns (<[p := existT ty v]> h).
Proof.
  intros Hp. unfold assign. rewrite Hp. simpl.
  destruct (decide (ty = ty)); [reflexivity | congruence].
Qed.

Lemma assign_well_typed (ty : storage_type) (p : pointer) (o : object)
    (v : storage_sem ty) (h : heap) :
  h !! p = Some o → projT1 o = ty →
  assign ty p v h = Returns (<[p := existT ty v]> h).
Proof.
  intros Hp Hty. unfold assign. rewrite Hp.
  destruct (decide (projT1 o = ty)); [reflexivity | congruence].
Qed.

Lemma deref_assign (ty : storage_type) (p : pointer) (v : storage_sem ty) (h : heap) :
  deref ty p (<[p := existT ty v]> h) = Returns v.
Proof. apply deref_typed, lookup_insert_eq. Qed.

Lemma getter_member_same (ty : storage_type) (f : getter_sig ty) :
  accessor_helper_getter ty (Some (existT ty f)) = good_fn f.
Proof. simpl. rewrite cast_to_same. reflexivity. Qed.

Lemma setter_member_same (ty : storage_type) (f : setter_sig ty) :
  accessor_helper_setter ty (Some (existT ty f)) = good_fn f.
Proof. simpl. rewrite cast_to_same. reflexivity. Qed.

(** A union member is null exactly when the stored pointer is, whichever
    member it is read through. *)
Lemma getter_member_null (ty : storage_type) (g : param_getter) :
  not_null (accessor_helper_getter ty g) = false ↔ g = None.
Proof.
  destruct g as [[ty' f]|]; simpl; [|tauto].
  destruct (cast_to ty f); simpl; split; discriminate.
Qed.

Lemma setter_member_null (ty : storage_type) (g : param_setter) :
  not_null (accessor_helper_setter ty g) = false ↔ g = None.
Proof.
  destruct g as [[ty' f]|]; simpl; [|tauto].
  destruct (cast_to ty f); simpl; split; discriminate.
Qed.

End memory.

(** ** Reading and writing a setting *)

Section setting_access.

Variables (T : var_types) (Us : list var_types).

Let ty : storage_type := have_same_storage_type T Us.

Lemma get_covered (s : base_param_ref) (h : heap) :
  covers_type T Us (m_var_type s) = true →
  get T Us s h =
    if not_null (accessor_helper_getter ty (m_getter s))
    then call_getter (accessor_helper_getter ty (m_getter s)) h
    else if empty s then Faults assertion_failed
         else deref ty (m_var s) h.
Proof.
  intros Hcov. unfold get, get_p, ty. rewrite Hcov. simpl.
  destruct (not_null _); [reflexivity|].
  destruct (empty s); reflexivity.
Qed.

Lemma set_covered (v : storage_sem ty) (s : base_param_ref) (h : heap) :
  covers_type T Us (m_var_type s) = true →
  set T Us v s h =
    if not_null (accessor_helper_setter ty (m_setter s))
    then call_setter (accessor_helper_setter ty (m_setter s)) v h
    else if empty s then Faults assertion_failed
         else assign ty (m_var s) v h.
Proof.
  intros Hcov. unfold set, ty. rewrite Hcov. simpl.
  destruct (not_null _); [reflexivity|].
  destruct (empty s); reflexivity.
Qed.

Lemma get_not_covered (s : base_param_ref) (h : heap) :
  covers_type T Us (m_var_type s) = false →
  get T Us s h = Faults assertion_failed.
Proof. intros Hcov. unfold get. rewrite Hcov. reflexivity. Qed.

Lemma set_not_covered (v : storage_sem ty) (s : base_param_ref) (h : heap) :
  covers_type T Us (m_var_type s) = false →
  set T Us v s h = Faults assertion_failed.
Proof. intros Hcov. unfold set. rewrite Hcov. reflexivity. Qed.

Lemma get_p_not_covered (s : base_param_ref) :
  covers_type T Us (m_var_type s) = false →
  get_p T Us s = Faults assertion_failed.
Proof. intros Hcov. unfold get_p. rewrite Hcov. reflexivity. Qed.

End setting_access.

(** C1: for a setting whose kind is covered by the requested pack of kinds,
    [get] returns the result [f h] of the bound getter [f] when a getter is
    bound, and otherwise the value [x] of the variable that the memory cell
    holds; [set] runs the bound setter [f] on [v], leaving the state
    [f v h], when a setter is bound, and otherwise stores [v] in the
    variable of the memory cell; on the cell path, a setting with no memory
    cell fails the assertion.  Accessors stored for the setting's own kind
    are always read back as the functions they are, for every instantiable
    pack; a pointer stored through another member of the union is not a
    function of the member's signature, and the call through it is all that
    happens. *)
Theorem get_set_dispatch (T : var_types) (Us : list var_types)
    (s : base_param_ref) (h : heap)
    (v : storage_sem (have_same_storage_type T Us)) :
  covers_type T Us (m_var_type s) = true →
  let ty := have_same_storage_type T Us in
  let getter := accessor_helper_getter ty (m_getter s) in
  let setter := accessor_helper_setter ty (m_setter s) in
  (∀ f : getter_sig ty, getter = good_fn f → get T Us s h = Returns (f h))
  ∧ (not_null getter = true → get T Us s h = call_getter getter h)
  ∧ (not_null getter = false → empty s = false →
     get T Us s h = deref ty (m_var s) h)
  ∧ (∀ x : storage_sem ty,
       not_null getter = false → empty s = false →
       h !! m_var s = Some (existT ty x) →
       get T Us s h = Returns x)
  ∧ (not_null getter = false → empty s = true →
     get T Us s h = Faults assertion_failed)
  ∧ (∀ f : setter_sig ty, setter = good_fn f →
       set T Us v s h = Returns (f v h))
  ∧ (not_null setter = true → set T Us v s h = call_setter setter v h)
  ∧ (not_null setter = false → empty s = false →
     set T Us v s h = assign ty (m_var s) v h)
  ∧ (∀ o : object,
       not_null setter = false → empty s = false →
       h !! m_var s = Some o → projT1 o = ty →
       set T Us v s h = Returns (<[m_var s := existT ty v]> h))
  ∧ (not_null setter = false → empty s = true →
     set T Us v s h = Faults assertion_failed)
  ∧ (have_same_storage_value T Us = true →
     (∀ g : getter_sig (var_types_storage (m_var_type s)),
        m_getter s = Some (existT (var_types_storage (m_var_type s)) g) →
        ∃ x, get T Us s h = Returns x
             ∧ existT ty x = existT (var_types_storage (m_var_type s)) (g h))
     ∧ (∀ f : setter_sig (var_types_storage (m_var_type s)),
          m_setter s = Some (existT (var_types_storage (m_var_type s)) f) →
          ∃ w, set T Us v s h = Returns (f w h)
               ∧ existT (var_types_storage (m_var_type s)) w = existT ty v)).
Proof.
  intros Hcov ty getter setter.
  pose proof (get_covered T Us s h Hcov) as Hget.
  pose proof (set_covered T Us v s h Hcov) as Hset.
  fold ty getter in Hget. fold ty setter in Hset.
  split; [|split; [|split; [|split; [|split]]]].
  - intros f Hf. rewrite Hget, Hf. reflexivity.
  - intros Hg. rewrite Hget, Hg. reflexivity.
  - intros Hg He. rewrite Hget, Hg, He. reflexivity.
  - intros x Hg He Hx. rewrite Hget, Hg, He. apply deref_typed, Hx.
  - intros Hg He. rewrite Hget, Hg, He. reflexivity.
  - split; [|split; [|split; [|split; [|split]]]].
    + intros f Hf. rewrite Hset, Hf. reflexivity.
    + intros Hg. rewrite Hset, Hg. reflexivity.
    + intros Hg He. rewrite Hset, Hg, He. reflexivity.
    + intros o Hg He Ho Hty. rewrite Hset, Hg, He.
      apply (assign_well_typed ty (m_var s) o v h Ho Hty).
    + intros Hg He. rewrite Hset, Hg, He. reflexivity.
    + intros Hval.
      pose proof (covered_kind_storage T Us (m_var_type s) Hval Hcov) as Hty.
      subst ty getter setter. split.
      * intros g Hg. rewrite Hget, Hg. clear Hget Hset Hg. clear v.
        generalize dependent (have_same_storage_type T Us). intros ty <-.
        rewrite getter_member_same. simpl.
        exists (g h). split; reflexivity.
      * intros f Hf. rewrite Hset, Hf. clear Hget Hset Hf. revert v.
        generalize dependent (have_same_storage_type T Us). intros ty <- v.
        rewrite setter_member_same. simpl.
        exists v. split; reflexivity.
Qed.

(** The dispatch of C1 on the sample settings: the accessor-backed flag is
    read through its getter and written through its setter, the cell-backed
    file name is read from and written to its variable, and the fresh
    setting, which has neither, fails the assertion. *)
Lemma get_set_dispatch_witness :
  covers_type var_boolean [] (m_var_type sample_accessor_setting) = true
  ∧ get var_boolean [] sample_accessor_setting {[ 8%N := existT ty_int 5 ]}
    = Returns (sample_getter {[ 8%N := existT ty_int 5 ]})
  ∧ sample_getter {[ 8%N := existT ty_int 5 ]} = true
  ∧ set var_boolean [] false sample_accessor_setting
      {[ 8%N := existT ty_int 5 ]}
    = Returns (sample_setter false {[ 8%N := existT ty_int 5 ]})
  ∧ sample_setter false {[ 8%N := existT ty_int 5 ]}
    = {[ 8%N := existT ty_int 0 ]}
  ∧ covers_type var_filename [var_optional_filename]
      (m_var_type sample_cell_setting) = true
  ∧ get var_filename [var_optional_filename] sample_cell_setting sample_heap
    = Returns "a.out"
  ∧ set var_filename [var_optional_filename] "b.out" sample_cell_setting
      sample_heap
    = Returns (<[ 16%N := existT ty_string "b.out" ]> sample_heap)
  ∧ get var_boolean [] fresh ∅ = Faults assertion_failed
  ∧ set var_boolean [] true fresh ∅ = Faults assertion_failed.
Proof.
  pose proof (get_set_dispatch var_boolean [] sample_accessor_setting
                {[ 8%N := existT ty_int 5 ]} false eq_refl) as Hacc.
  pose proof (get_set_dispatch var_filename [var_optional_filename]
                sample_cell_setting sample_heap "b.out" eq_refl) as Hcell.
  pose proof (get_set_dispatch var_boolean [] fresh ∅ true eq_refl) as Hfresh.
  simpl in Hacc, Hcell, Hfresh.
  destruct Hacc as (Hget & _ & _ & _ & _ & Hset & _).
  destruct Hcell as (_ & _ & _ & Hcget & _ & _ & _ & _ & Hcset & _).
  destruct Hfresh as (_ & _ & _ & _ & Hfget & _ & _ & _ & _ & Hfset & _).
  split; [reflexivity|]. split; [apply Hget; reflexivity|].
  split; [reflexivity|]. split; [apply Hset; reflexivity|].
  split; [reflexivity|]. split; [reflexivity|].
  split; [apply (Hcget "a.out"); reflexivity|].
  split; [apply (Hcset (existT ty_string "a.out")); reflexivity|].
  split; [apply Hfget; reflexivity | apply Hfset; reflexivity].
Defined.

(** ** Binding a memory cell *)

Lemma set_type_returns (K : var_types) (s : base_param_ref) :
  empty s = true →
  set_type K s = Returns (mk_param_ref K (m_var s) (m_getter s) (m_setter s)).
Proof. intros He. unfold set_type. rewrite He. reflexivity. Qed.

Lemma set_type_faults (K : var_types) (s : base_param_ref) :
  empty s = false → set_type K s = Faults assertion_failed.
Proof. intros He. unfold set_type. rewrite He. reflexivity. Qed.

Lemma set_p_returns (K : var_types) (p : pointer) (s : base_param_ref) :
  p ≠ nullptr → empty s = true →
  set_p K p s = Returns (mk_param_ref K p (m_getter s) (m_setter s)).
Proof.
  intros Hp He. unfold set_p.
  rewrite (bool_decide_eq_false_2 _ Hp), (set_type_returns K s He).
  reflexivity.
Qed.

Lemma set_p_faults (K : var_types) (p : pointer) (s : base_param_ref) :
  p = nullptr ∨ empty s = false → set_p K p s = Faults assertion_failed.
Proof.
  intros [Hp | He]; unfold set_p.
  - rewrite (bool_decide_eq_true_2 _ Hp). reflexivity.
  - destruct (bool_decide (p = nullptr)); [reflexivity|].
    simpl. rewrite (set_type_faults K s He). reflexivity.
Qed.

Lemma empty_true (s : base_param_ref) : empty s = true ↔ m_var s = nullptr.
Proof. unfold empty. apply bool_decide_eq_true. Qed.

Lemma empty_false (s : base_param_ref) : empty s = false ↔ m_var s ≠ nullptr.
Proof. unfold empty. apply bool_decide_eq_false. Qed.

(** C2: on a fresh setting, [set_p<K>] with a non-null pointer to a variable
    of [K]'s storage type, then [set<K> (v)], then [get<K> ()] returns
    exactly [v]: each of the three calls returns, and the last returns [v]. *)
Theorem set_p_set_get_round_trip (K : var_types) (p : pointer) (h : heap)
    (x v : storage_sem (var_types_storage K)) :
  p ≠ nullptr →
  h !! p = Some (existT (var_types_storage K) x) →
  ∃ (s : base_param_ref) (h' : heap),
    set_p K p fresh = Returns s
    ∧ set K [] v s h = Returns h'
    ∧ get K [] s h' = Returns v.
Proof.
  intros Hp Hx.
  exists (mk_param_ref K p None None),
         (<[p := existT (var_types_storage K) v]> h).
  assert (Hcov : covers_type K [] K = true)
    by (apply covers_type_spec, list_elem_of_singleton; reflexivity).
  assert (He : empty (mk_param_ref K p None None) = false)
    by (apply empty_false; exact Hp).
  split; [|split].
  - apply (set_p_returns K p fresh Hp). reflexivity.
  - rewrite set_covered by exact Hcov. simpl. rewrite He.
    apply (assign_typed _ p x v h Hx).
  - rewrite get_covered by exact Hcov. simpl. rewrite He.
    apply deref_assign.
Qed.

(** The round trip of C2 on a [var_zuinteger] variable at address 4. *)
Lemma set_p_set_get_round_trip_witness :
  ∃ (s : base_param_ref) (h' : heap),
    set_p var_zuinteger 4%N fresh = Returns s
    ∧ set var_zuinteger [] 7 s {[ 4%N := existT ty_uint 0 ]} = Returns h'
    ∧ get var_zuinteger [] s h' = Returns 7.
Proof.
  apply (set_p_set_get_round_trip var_zuinteger 4%N
           {[ 4%N := existT ty_uint 0 ]} 0 7).
  - discriminate.
  - reflexivity.
Defined.

(** The round trip also holds through any instantiable pack that covers the
    kind the cell was bound with: the variable has [K]'s storage type, which
    is the pack's [type]. *)
Lemma set_p_set_get_round_trip_pack (K T : var_types) (Us : list var_types)
    (p : pointer) (h : heap) (o : object)
    (v : storage_sem (have_same_storage_type T Us)) :
  have_same_storage_value T Us = true →
  covers_type T Us K = true →
  p ≠ nullptr →
  h !! p = Some o →
  projT1 o = var_types_storage K →
  ∃ (s : base_param_ref) (h' : heap),
    set_p K p fresh = Returns s
    ∧ set T Us v s h = Returns h'
    ∧ get T Us s h' = Returns v.
Proof.
  intros Hval Hcov Hp Ho Hty.
  rewrite (covered_kind_storage T Us K Hval Hcov) in Hty.
  exists (mk_param_ref K p None None),
         (<[p := existT (have_same_storage_type T Us) v]> h).
  assert (He : empty (mk_param_ref K p None None) = false)
    by (apply empty_false; exact Hp).
  split; [|split].
  - apply (set_p_returns K p fresh Hp). reflexivity.
  - rewrite set_covered by exact Hcov. simpl. rewrite He.
    apply (assign_well_typed _ p o v h Ho Hty).
  - rewrite get_covered by exact Hcov. simpl. rewrite He.
    apply deref_assign.
Qed.

(** C3: when the requested pack of kinds does not cover the setting's kind,
    [get], [set] and [get_p] fail the assertion, whatever the accessors, the
    cell pointer and the memory are: nothing is read, written or called. *)
Theorem kind_mismatch_faults (T : var_types) (Us : list var_types)
    (s : base_param_ref) (h : heap)
    (v : storage_sem (have_same_storage_type T Us)) :
  covers_type T Us (m_var_type s) = false →
  get T Us s h = Faults assertion_failed
  ∧ set T Us v s h = Faults assertion_failed
  ∧ get_p T Us s = Faults assertion_failed.
Proof.
  intros Hcov. split; [|split].
  - apply get_not_covered, Hcov.
  - apply set_not_covered, Hcov.
  - apply get_p_not_covered, Hcov.
Qed.

(** C3 on the sample file-name setting, asked for as an integer. *)
Lemma kind_mismatch_faults_witness :
  covers_type var_integer [var_zinteger]
    (m_var_type sample_cell_setting) = false
  ∧ get var_integer [var_zinteger] sample_cell_setting sample_heap
    = Faults assertion_failed
  ∧ set var_integer [var_zinteger] 3 sample_cell_setting sample_heap
    = Faults assertion_failed
  ∧ get_p var_integer [var_zinteger] sample_cell_setting
    = Faults assertion_failed.
Proof.
  split; [reflexivity|].
  apply (kind_mismatch_faults var_integer [var_zinteger]
           sample_cell_setting sample_heap 3).
  reflexivity.
Defined.

(** C6: [set_p<K> (p)] on a setting with no memory cell and with [p] not
    null returns the setting with kind [K] and cell [p] (the accessors are
    left as they were); with a cell already bound, or with a null [p], it
    fails the assertion. *)
Theorem set_p_precondition (K : var_types) (p : pointer) (s : base_param_ref) :
  (p ≠ nullptr ∧ empty s = true →
   set_p K p s = Returns (mk_param_ref K p (m_getter s) (m_setter s)))
  ∧ (p = nullptr ∨ empty s = false →
     set_p K p s = Faults assertion_failed)
  ∧ (empty s = true →
     set_type K s
     = Returns (mk_param_ref K (m_var s) (m_getter s) (m_setter s)))
  ∧ (empty s = false → set_type K s = Faults assertion_failed).
Proof.
  split; [|split; [|split]].
  - intros [Hp He]. apply set_p_returns; assumption.
  - apply set_p_faults.
  - apply set_type_returns.
  - apply set_type_faults.
Qed.

(** C6 at concrete calls: binding a fresh setting, binding the same setting
    again, and binding a null pointer. *)
Lemma set_p_precondition_witness :
  set_p var_enum 32%N fresh = Returns (mk_param_ref var_enum 32%N None None)
  ∧ set_p var_enum 40%N (mk_param_ref var_enum 32%N None None)
    = Faults assertion_failed
  ∧ set_p var_enum nullptr fresh = Faults assertion_failed.
Proof.
  split; [|split].
  - apply (proj1 (set_p_precondition var_enum 32%N fresh)).
    split; [discriminate | reflexivity].
  - apply (proj1 (proj2 (set_p_precondition var_enum 40%N
                           (mk_param_ref var_enum 32%N None None)))).
    right. reflexivity.
  - apply (proj1 (proj2 (set_p_precondition var_enum nullptr fresh))).
    left. reflexivity.
Defined.

(** ** Which storage a setting has *)

(** Along a sequence of binding calls that all return: a setting that
    already has a cell sees no [set_p], a setting without one sees at most
    one, and the accessors are those of the last [set_accessors]. *)
Lemma run_bindings_storage (bs : list binding) (s0 s : base_param_ref) :
  run_bindings bs s0 = Returns s →
  (m_var s0 ≠ nullptr → filter is_set_p bs = [] ∧ m_var s = m_var s0)
  ∧ (m_var s0 = nullptr →
     (length (filter is_set_p bs) ≤ 1)%nat ∧ m_var s = bound_cell bs)
  ∧ (m_getter s, m_setter s) = bound_accessors bs (m_getter s0, m_setter s0).
Proof.
  revert s0. induction bs as [|b bs IH]; intros s0 Hrun.
  - simpl in Hrun. injection Hrun as <-. simpl. auto with lia.
  - simpl in Hrun. apply outcome_bind_inv in Hrun as (s1 & Hb & Hrun).
    specialize (IH s1 Hrun) as (IHcell & IHnone & IHacc).
    destruct b as [K v | K setter getter]; simpl in Hb.
    + destruct (decide (v = nullptr)) as [Hv|Hv].
      { rewrite set_p_faults in Hb by auto. discriminate. }
      destruct (empty s0) eqn:He.
      2:{ rewrite set_p_faults in Hb by auto. discriminate. }
      rewrite set_p_returns in Hb by assumption. injection Hb as <-.
      apply empty_true in He. simpl in *.
      destruct (IHcell Hv) as [Hnil Hvar].
      split; [congruence|]. split; [|exact IHacc].
      intros _. rewrite Hnil. simpl. auto.
    + injection Hb as <-. simpl in *.
      split; [exact IHcell|]. split; [exact IHnone | exact IHacc].
Qed.

(** With a getter bound [get] does not look at the cell pointer; with a
    setter bound neither does [set]. *)
Lemma accessors_take_precedence (T : var_types) (Us : list var_types)
    (s : base_param_ref) (h : heap)
    (v : storage_sem (have_same_storage_type T Us)) (q : pointer) :
  (m_getter s ≠ None → get T Us (with_m_var q s) h = get T Us s h)
  ∧ (m_setter s ≠ None → set T Us v (with_m_var q s) h = set T Us v s h).
Proof.
  split; intros Hacc.
  - unfold get. simpl.
    destruct (not_null (accessor_helper_getter _ (m_getter s))) eqn:Hn;
      [reflexivity|].
    apply getter_member_null in Hn. contradiction.
  - unfold set. simpl.
    destruct (not_null (accessor_helper_setter _ (m_setter s))) eqn:Hn;
      [reflexivity|].
    apply setter_member_null in Hn. contradiction.
Qed.

(** C4, the claim as stated fails: [set_p] followed by [set_accessors]
    returns a setting that has a memory cell and a full accessor pair at
    once, and so does the opposite order. *)
Lemma cell_and_accessors_together :
  run_bindings
    [call_set_p var_boolean 8%N;
     call_set_accessors var_boolean (Some sample_setter) (Some sample_getter)]
    fresh
  = Returns (mk_param_ref var_boolean 8%N
               (Some (existT ty_bool sample_getter))
               (Some (existT ty_bool sample_setter)))
  ∧ run_bindings
      [call_set_accessors var_boolean (Some sample_setter) (Some sample_getter);
       call_set_p var_boolean 8%N]
      fresh
    = Returns (mk_param_ref var_boolean 8%N
                 (Some (existT ty_bool sample_getter))
                 (Some (existT ty_bool sample_setter)))
  ∧ empty (mk_param_ref var_boolean 8%N
             (Some (existT ty_bool sample_getter))
             (Some (existT ty_bool sample_setter))) = false
  ∧ has_accessor_pair (mk_param_ref var_boolean 8%N
                         (Some (existT ty_bool sample_getter))
                         (Some (existT ty_bool sample_setter))) = true.
Proof. repeat split. Qed.

(** C4, amended: the two bindings are independent.  In a sequence of [set_p]
    and [set_accessors] calls on a fresh setting that all return, at most
    one call is a [set_p]; the setting ends with the cell of that call (none
    if there is no such call) and with the accessors of the last
    [set_accessors] (none if there is no such call), so it may have both.
    Only one storage is active in an access: a bound getter makes [get]
    independent of the cell pointer, a bound setter does so for [set]. *)
Theorem storage_bindings_independent (bs : list binding) (s : base_param_ref) :
  run_bindings bs fresh = Returns s →
  (length (filter is_set_p bs) ≤ 1)%nat
  ∧ m_var s = bound_cell bs
  ∧ (m_getter s, m_setter s) = bound_accessors bs (None, None)
  ∧ ∀ (T : var_types) (Us : list var_types) (h : heap)
      (v : storage_sem (have_same_storage_type T Us)) (q : pointer),
      (m_getter s ≠ None → get T Us (with_m_var q s) h = get T Us s h)
      ∧ (m_setter s ≠ None → set T Us v (with_m_var q s) h = set T Us v s h).
Proof.
  intros Hrun.
  destruct (run_bindings_storage bs fresh s Hrun) as (_ & Hnone & Hacc).
  destruct (Hnone eq_refl) as [Hlen Hvar].
  split; [exact Hlen|]. split; [exact Hvar|]. split; [exact Hacc|].
  intros T Us h v q. apply accessors_take_precedence.
Qed.

(** The amended C4 on the sequence [set_p], [set_accessors]: one [set_p], and
    a setting with both storages that reads through its getter. *)
Lemma storage_bindings_independent_witness :
  run_bindings
    [call_set_p var_boolean 8%N;
     call_set_accessors var_boolean (Some sample_setter) (Some sample_getter)]
    fresh
  = Returns (mk_param_ref var_boolean 8%N
               (Some (existT ty_bool sample_getter))
               (Some (existT ty_bool sample_setter)))
  ∧ get var_boolean []
      (mk_param_ref var_boolean nullptr
         (Some (existT ty_bool sample_getter))
         (Some (existT ty_bool sample_setter)))
      {[ 8%N := existT ty_int 5 ]}
    = Returns true.
Proof.
  split; [reflexivity|].
  pose proof (storage_bindings_independent
    [call_set_p var_boolean 8%N;
     call_set_accessors var_boolean (Some sample_setter) (Some sample_getter)]
    _ eq_refl) as (_ & _ & _ & Hacc).
  destruct (Hacc var_boolean [] {[ 8%N := existT ty_int 5 ]} true nullptr)
    as [Hget _].
  simpl in Hget. unfold with_m_var in Hget. simpl in Hget.
  rewrite Hget by discriminate. reflexivity.
Defined.

(** ** Empty and valid settings *)

Lemma has_accessor_pair_true (s : base_param_ref) :
  has_accessor_pair s = true ↔ m_getter s ≠ None ∧ m_setter s ≠ None.
Proof.
  unfold has_accessor_pair. rewrite andb_true_iff.
  rewrite <- !not_false_iff_true, getter_member_null, setter_member_null.
  reflexivity.
Qed.

(** C5, the claim as stated fails: the sample accessor-backed setting has a
    full accessor pair and is valid, yet [empty] holds of it, and [get] and
    [set] on it return instead of faulting.  The setting with a getter
    alone has neither a memory reference nor an accessor pair, and [get] on
    it returns as well. *)
Lemma empty_setting_with_accessors :
  has_accessor_pair sample_accessor_setting = true
  ∧ empty sample_accessor_setting = true
  ∧ operator_bool sample_accessor_setting = true
  ∧ get var_boolean [] sample_accessor_setting {[ 8%N := existT ty_int 1 ]}
    = Returns true
  ∧ set var_boolean [] false sample_accessor_setting
      {[ 8%N := existT ty_int 1 ]}
    = Returns (<[ 8%N := existT ty_int 0 ]> {[ 8%N := existT ty_int 1 ]})
  ∧ has_accessor_pair sample_getter_only_setting = false
  ∧ empty sample_getter_only_setting = true
  ∧ get var_boolean [] sample_getter_only_setting
      {[ 8%N := existT ty_int 1 ]}
    = Returns true.
Proof. repeat split. Qed.

(** C5, amended: a setting is empty exactly when it has no memory reference,
    whatever its accessors are; [get] on an empty setting with no getter and
    [set] on an empty setting with no setter fail the assertion; and a
    setting is valid (its conversion to [bool] is true) if and only if it is
    not empty or it has both a getter and a setter. *)
Theorem empty_and_valid (s : base_param_ref) :
  (empty s = true ↔ m_var s = nullptr)
  ∧ (∀ (T : var_types) (Us : list var_types) (h : heap),
       empty s = true → m_getter s = None →
       get T Us s h = Faults assertion_failed)
  ∧ (∀ (T : var_types) (Us : list var_types) (h : heap)
       (v : storage_sem (have_same_storage_type T Us)),
       empty s = true → m_setter s = None →
       set T Us v s h = Faults assertion_failed)
  ∧ (operator_bool s = true
     ↔ empty s = false ∨ (m_getter s ≠ None ∧ m_setter s ≠ None)).
Proof.
  split; [apply empty_true|]. split; [|split].
  - intros T Us h He Hg.
    destruct (covers_type T Us (m_var_type s)) eqn:Hcov.
    + rewrite get_covered by exact Hcov. rewrite Hg, He. reflexivity.
    + apply get_not_covered, Hcov.
  - intros T Us h v He Hg.
    destruct (covers_type T Us (m_var_type s)) eqn:Hcov.
    + rewrite set_covered by exact Hcov. rewrite Hg, He. reflexivity.
    + apply set_not_covered, Hcov.
  - unfold operator_bool. fold (has_accessor_pair s).
    rewrite orb_true_iff, has_accessor_pair_true, negb_true_iff. tauto.
Qed.

(** The amended C5 on the fresh setting: empty, not valid, and faulting on
    [get] and on [set]. *)
Lemma empty_and_valid_witness :
  empty fresh = true
  ∧ operator_bool fresh = false
  ∧ get var_boolean [] fresh ∅ = Faults assertion_failed
  ∧ set var_boolean [] true fresh ∅ = Faults assertion_failed.
Proof.
  destruct (empty_and_valid fresh) as (He & Hget & Hset & _).
  split; [apply He; reflexivity|]. split; [reflexivity|]. split.
  - apply Hget; reflexivity.
  - apply Hset; reflexivity.
Defined.

(** ** Kinds that share a representation *)

Lemma var_type_uses_string_spec (t : var_types) :
  var_type_uses_string t = true ↔ t ∈ string_kinds.
Proof.
  unfold var_type_uses_string, string_kinds.
  rewrite !orb_true_iff, !bool_decide_eq_true, !elem_of_cons, elem_of_nil.
  tauto.
Qed.

Lemma string_kinds_storage (t : var_types) :
  t ∈ string_kinds ↔ var_types_storage t = ty_string.
Proof.
  rewrite <- var_type_uses_string_spec.
  destruct t; simpl; split; (reflexivity || discriminate).
Qed.

(** C7, the claim as stated fails: the three zero-capable integer kinds do
    not share one representation, since [var_zuinteger] is stored in an
    [unsigned int] and the other two in an [int]. *)
Lemma zero_capable_kinds_differ :
  have_same_storage_value var_zinteger
    [var_zuinteger; var_zuinteger_unlimited] = false
  ∧ have_same_storage_value var_zinteger [var_zuinteger] = false
  ∧ have_same_storage_value var_zuinteger [var_zuinteger_unlimited] = false
  ∧ var_types_storage var_zinteger = ty_int
  ∧ var_types_storage var_zuinteger = ty_uint
  ∧ var_types_storage var_zuinteger_unlimited = ty_int.
Proof. repeat split. Qed.

(** C7, amended: the four string-like kinds are stored in a [std::string],
    they are exactly the kinds for which [var_type_uses_string] is true, and
    [value] holds for every pack drawn from them.  Of the zero-capable
    integer kinds, [var_zinteger] and [var_zuinteger_unlimited] are stored
    in an [int] and [value] holds for every pack drawn from these two, while
    [var_zuinteger] is stored in an [unsigned int]: no pack with [value]
    true holds it together with one of the other two. *)
Theorem kind_groups_share_storage :
  (∀ t : var_types, var_type_uses_string t = true ↔ t ∈ string_kinds)
  ∧ (∀ t : var_types, t ∈ string_kinds ↔ var_types_storage t = ty_string)
  ∧ (∀ (T : var_types) (Us : list var_types),
       Forall (λ U, U ∈ string_kinds) (T :: Us) →
       have_same_storage_value T Us = true
       ∧ have_same_storage_type T Us = ty_string)
  ∧ (∀ (T : var_types) (Us : list var_types),
       Forall (λ U, U ∈ [var_zinteger; var_zuinteger_unlimited]) (T :: Us) →
       have_same_storage_value T Us = true
       ∧ have_same_storage_type T Us = ty_int)
  ∧ (∀ (T : var_types) (Us : list var_types),
       have_same_storage_value T Us = true →
       var_zuinteger ∈ (T :: Us) →
       (var_zinteger ∉ (T :: Us)) ∧ (var_zuinteger_unlimited ∉ (T :: Us))).
Proof.
  split; [exact var_type_uses_string_spec|].
  split; [exact string_kinds_storage|].
  split; [|split].
  - intros T Us Hall. apply Forall_cons in Hall as [HT HUs].
    apply string_kinds_storage in HT.
    split; [|exact HT].
    apply have_same_storage_value_spec.
    eapply Forall_impl; [exact HUs|].
    intros U HU. apply string_kinds_storage in HU. congruence.
  - intros T Us Hall.
    assert (Hint : ∀ U, U ∈ [var_zinteger; var_zuinteger_unlimited] →
                        var_types_storage U = ty_int).
    { intros U HU. rewrite !elem_of_cons, elem_of_nil in HU.
      destruct HU as [-> | [-> | []]]; reflexivity. }
    apply Forall_cons in Hall as [HT HUs].
    split; [|exact (Hint T HT)].
    apply have_same_storage_value_spec.
    eapply Forall_impl; [exact HUs|].
    intros U HU. rewrite (Hint U HU), (Hint T HT). reflexivity.
  - intros T Us Hval Hin.
    assert (Hsame : ∀ U, U ∈ T :: Us →
                         var_types_storage U = var_types_storage T).
    { apply have_same_storage_value_spec in Hval.
      rewrite Forall_forall in Hval.
      intros U HU. apply elem_of_cons in HU as [-> | HU]; auto. }
    pose proof (Hsame _ Hin) as Hz. simpl in Hz.
    split; intros Hin'; apply Hsame in Hin'; simpl in Hin'; congruence.
Qed.

(** The amended C7 on concrete packs: all four string kinds at once, and the
    two [int]-stored zero-capable kinds. *)
Lemma kind_groups_share_storage_witness :
  have_same_storage_value var_string
    [var_string_noescape; var_optional_filename; var_filename] = true
  ∧ have_same_storage_value var_zuinteger_unlimited [var_zinteger] = true.
Proof.
  destruct kind_groups_share_storage as (_ & _ & Hstr & Hint & _).
  split.
  - apply Hstr. unfold string_kinds. repeat constructor.
  - apply Hint. repeat constructor.
Defined.

(** ** GCC modes *)

Import CompileCSupport.

Lemma string_app_assoc (a b c : string) : (a +:+ b) +:+ c = a +:+ (b +:+ c).
Proof.
  induction a as [|x a IH]; [reflexivity|].
  change (String x ((a +:+ b) +:+ c) = String x (a +:+ (b +:+ c))).
  f_equal. exact IH.
Qed.

Lemma c_get_mode_for_size_other (size : Z) :
  size ∉ [1; 2; 4; 8] →
  c_get_mode_for_size size
  = Faults (internal_error "Invalid GCC mode size %d." size).
Proof.
  intros Hsize. rewrite !not_elem_of_cons in Hsize.
  destruct Hsize as (H1 & H2 & H4 & H8 & _).
  destruct size as [|p|p]; try reflexivity.
  do 4 (try (destruct p as [p|p|]; try reflexivity)); congruence.
Qed.

(** C10: [c_get_mode_for_size] returns the mode strings QI, HI, SI and DI
    for the sizes 1, 2, 4 and 8, never [NULL] for them, and raises the
    internal error for every other size; the loop of [compute], which asks
    for the sizes [1 << i] with [i] from 0 to 3, therefore passes its
    [NULL] check in every iteration and returns, having written the four
    typedef lines. *)
Theorem c_get_mode_for_size_modes :
  c_get_mode_for_size 1 = Returns (Some "QI")
  ∧ c_get_mode_for_size 2 = Returns (Some "HI")
  ∧ c_get_mode_for_size 4 = Returns (Some "SI")
  ∧ c_get_mode_for_size 8 = Returns (Some "DI")
  ∧ (∀ size : Z,
       size ∉ [1; 2; 4; 8] →
       c_get_mode_for_size size
       = Faults (internal_error "Invalid GCC mode size %d." size))
  ∧ (∀ i : Z,
       0 ≤ i < 4 →
       ∃ mode : string,
         c_get_mode_for_size (Z.shiftl 1 i) = Returns (Some mode))
  ∧ (∀ buf : string,
       mode_loop buf
       = Returns (buf +:+ typedef_line "QI" +:+ typedef_line "HI"
                  +:+ typedef_line "SI" +:+ typedef_line "DI")).
Proof.
  repeat (split; [reflexivity|]).
  split; [exact c_get_mode_for_size_other|]. split.
  - intros i Hi.
    assert (i = 0 ∨ i = 1 ∨ i = 2 ∨ i = 3) as [-> | [-> | [-> | ->]]] by lia;
      eexists; reflexivity.
  - intros buf. unfold mode_loop. simpl.
    rewrite !string_app_assoc. reflexivity.
Qed.

(** C10 at concrete sizes: 3 is refused with the internal error, and the
    third iteration of the loop asks for size 4. *)
Lemma c_get_mode_for_size_modes_witness :
  c_get_mode_for_size 3
  = Faults (internal_error "Invalid GCC mode size %d." 3)
  ∧ ∃ mode : string, c_get_mode_for_size (Z.shiftl 1 2) = Returns (Some mode).
Proof.
  destruct c_get_mode_for_size_modes as (_ & _ & _ & _ & Hother & Hloop & _).
  split.
  - apply Hother. rewrite !not_elem_of_cons. repeat split; try discriminate.
    apply not_elem_of_nil.
  - apply Hloop. lia.
Defined.

(** ** Command lookup *)

Import Lookup.

Lemma follow_alias_base (c : cmd_list_element) (acc : string) :
  (follow_alias c acc).1 = base_command c.
Proof.
  revert acc. induction c as [a|a u subs|a t IH]; intros acc; simpl; auto.
Qed.

(** One step of [lookup_cmd_1], as the description of the matcher reads. *)
Lemma lookup_cmd_1_unfold (ign : bool) (text : string)
    (clist : list cmd_list_element) (dargs : string) :
  lookup_cmd_1 ign text clist dargs
  = match next_word text with
    | None => NoMatch
    | Some w =>
        match remaining ign (token w) clist with
        | [] => NoMatch
        | [c] =>
            match follow_alias c dargs with
            | (Prefix a u subs, dargs') =>
                if more_input (past_token w) then
                  match lookup_cmd_1 ign (past_token w) subs dargs' with
                  | NoMatch => Unique (Prefix a u subs) clist (past_token w) dargs'
                  | Unique c' l t d => Unique c' l t d
                  | Ambiguous None t => Ambiguous (Some (Prefix a u subs)) t
                  | Ambiguous (Some p) t => Ambiguous (Some p) t
                  end
                else Unique (Prefix a u subs) clist (past_token w) dargs'
            | (found, dargs') => Unique found clist (past_token w) dargs'
            end
        | _ :: _ :: _ => Ambiguous None (at_token w)
        end
    end.
Proof.
  funelim (lookup_cmd_1 ign text clist dargs).
  1: rewrite e; reflexivity.
  all: clear Heqcall; try clear Hind; rewrite Hw; simpl.
  all: repeat match goal with
              | Heq : ?l = _ |- context [?l] => rewrite Heq; simpl
              end.
  all: reflexivity.
Qed.

Lemma remaining_several (ign : bool) (tok : string)
    (clist : list cmd_list_element) :
  (2 ≤ length (remaining ign tok clist))%nat →
  ∃ c1 c2 l, remaining ign tok clist = c1 :: c2 :: l.
Proof.
  destruct (remaining ign tok clist) as [|c1 [|c2 l]]; simpl; intros Hlen;
    [lia | lia | eauto].
Qed.

(** A walk to an ambiguity is what [lookup_cmd_1] reports as [Ambiguous],
    with the innermost prefix of the walk. *)
Lemma ambiguous_at_lookup (ign : bool) (text : string)
    (clist path : list cmd_list_element) (cursor : string) :
  ambiguous_at ign text clist path cursor →
  ∀ dargs : string,
    lookup_cmd_1 ign text clist dargs = Ambiguous (last path) cursor.
Proof.
  induction 1 as [text clist w Hw Hlen
                 |text clist w c a u subs path cursor Hw Hrem Hbase Hmore _ IH];
    intros dargs; rewrite lookup_cmd_1_unfold, Hw.
  - apply remaining_several in Hlen as (c1 & c2 & l & ->). reflexivity.
  - rewrite Hrem.
    pose proof (follow_alias_base c dargs) as Hfound. rewrite Hbase in Hfound.
    destruct (follow_alias c dargs) as [found dargs']. simpl in Hfound.
    subst found. rewrite Hmore, (IH dargs'), last_cons.
    destruct (last path); reflexivity.
Qed.

(** Every [Ambiguous] result comes from such a walk. *)
Lemma lookup_ambiguous_at (ign : bool) (n : nat) :
  ∀ (text : string) (clist : list cmd_list_element) (dargs : string)
    (e : option cmd_list_element) (cursor : string),
    (String.length text < n)%nat →
    lookup_cmd_1 ign text clist dargs = Ambiguous e cursor →
    ∃ path, ambiguous_at ign text clist path cursor ∧ e = last path.
Proof.
  induction n as [|n IH]; intros text clist dargs e cursor Hlen Hres; [lia|].
  rewrite lookup_cmd_1_unfold in Hres.
  destruct (next_word text) as [w|] eqn:Hw; [|discriminate].
  destruct (remaining ign (token w) clist) as [|c [|c2 l]] eqn:Hrem;
    [discriminate | |].
  - pose proof (follow_alias_base c dargs) as Hbase.
    destruct (follow_alias c dargs) as [found dargs']. simpl in Hbase.
    destruct found as [a|a u subs|a t]; [discriminate | | discriminate].
    destruct (more_input (past_token w)) eqn:Hmore; [|discriminate].
    pose proof (next_word_shorter text w Hw) as Hshort.
    destruct (lookup_cmd_1 ign (past_token w) subs dargs')
      as [|c' l' t' d'|e' t'] eqn:Hsub; [discriminate | discriminate |].
    apply IH in Hsub as (path & Hwalk & He'); [|lia].
    assert (Hcur : t' = cursor)
      by (destruct e'; injection Hres as _ <-; reflexivity).
    subst t'. symmetry in Hbase.
    exists (Prefix a u subs :: path). split.
    + eapply ambiguous_below; eauto.
    + rewrite last_cons, <- He'.
      destruct e' as [p|]; injection Hres as <-; reflexivity.
  - injection Hres as <- <-. exists []. split; [|reflexivity].
    apply ambiguous_here; [exact Hw|]. rewrite Hrem. simpl. lia.
Qed.

Lemma skip_blanks_suffix (s : string) : ∃ blanks, s = blanks +:+ skip_blanks s.
Proof.
  induction s as [|c s [b IH]]; [exists EmptyString; reflexivity|].
  simpl. destruct (is_blank c).
  - exists (String c b). change (String c s = String c (b +:+ skip_blanks s)).
    f_equal. exact IH.
  - exists EmptyString. reflexivity.
Qed.

Lemma split_token_app (s : string) :
  s = (split_token s).1 +:+ (split_token s).2.
Proof.
  induction s as [|c s IH]; [reflexivity|].
  simpl. destruct (is_blank c); [reflexivity|]. simpl.
  change (String c s = String c ((split_token s).1 +:+ (split_token s).2)).
  f_equal. exact IH.
Qed.

(** The word that [next_word] takes lies in the text: blanks come first,
    then the token, then the rest. *)
Lemma next_word_position (text : string) (w : word) :
  next_word text = Some w →
  (∃ blanks, text = blanks +:+ at_token w)
  ∧ at_token w = token w +:+ past_token w
  ∧ token w ≠ EmptyString.
Proof.
  unfold next_word. intros Hw.
  destruct (bool_decide_reflect
              ((split_token (skip_blanks text)).1 = EmptyString))
    as [He|Hne]; [discriminate|].
  injection Hw as <-. simpl.
  split; [apply skip_blanks_suffix|]. split; [apply split_token_app|exact Hne].
Qed.

(** The cursor of a walk is the text left when the ambiguous token is
    reached: the text is what was consumed followed by the cursor. *)
Lemma ambiguous_at_cursor (ign : bool) (text : string)
    (clist path : list cmd_list_element) (cursor : string) :
  ambiguous_at ign text clist path cursor →
  ∃ consumed, text = consumed +:+ cursor.
Proof.
  induction 1 as [text clist w Hw Hlen
                 |text clist w c a u subs path cursor Hw _ _ _ _ IH].
  - apply next_word_position in Hw as [Hblanks _]. exact Hblanks.
  - apply next_word_position in Hw as ([b Hb] & Hat & _).
    destruct IH as [consumed IH].
    exists (b +:+ token w +:+ consumed).
    rewrite Hb, Hat, IH at 1. rewrite !string_app_assoc. reflexivity.
Qed.

Lemma ambiguous_at_root (ign : bool) (text : string)
    (clist : list cmd_list_element) (cursor : string) :
  ambiguous_at ign text clist [] cursor
  ↔ ∃ w, next_word text = Some w
         ∧ (2 ≤ length (remaining ign (token w) clist))%nat
         ∧ cursor = at_token w.
Proof.
  split.
  - inversion 1; subst. eauto.
  - intros (w & Hw & Hlen & ->). apply ambiguous_here; assumption.
Qed.

(** C8: when the lookup comes to a token for which more than one sibling is
    left, after walking through the prefix commands of [path], it returns
    [Ambiguous], which is neither [NoMatch] nor [Unique] for any node; the
    enclosing prefix that it reports is the last prefix of the walk, and is
    none exactly when the ambiguity is in the list the lookup started from;
    the cursor is at the ambiguous token, after the text consumed by the
    walk.  Conversely every [Ambiguous] result arises in this way. *)
Theorem ambiguous_lookup_shape (ign : bool) (text : string)
    (clist : list cmd_list_element) (dargs : string) :
  (∀ (path : list cmd_list_element) (cursor : string),
     ambiguous_at ign text clist path cursor →
     lookup_cmd_1 ign text clist dargs = Ambiguous (last path) cursor)
  ∧ (∀ (e : option cmd_list_element) (cursor : string),
       lookup_cmd_1 ign text clist dargs = Ambiguous e cursor →
       ∃ path, ambiguous_at ign text clist path cursor
               ∧ e = last path
               ∧ ∃ consumed, text = consumed +:+ cursor)
  ∧ (∀ cursor : string,
       lookup_cmd_1 ign text clist dargs = Ambiguous None cursor
       ↔ ∃ w, next_word text = Some w
              ∧ (2 ≤ length (remaining ign (token w) clist))%nat
              ∧ cursor = at_token w)
  ∧ (∀ (e : option cmd_list_element) (cursor : string),
       Ambiguous e cursor ≠ NoMatch
       ∧ ∀ c l t d, Ambiguous e cursor ≠ Unique c l t d).
Proof.
  split; [|split; [|split]].
  - intros path cursor Hwalk. apply ambiguous_at_lookup, Hwalk.
  - intros e cursor Hres.
    apply (lookup_ambiguous_at ign (S (String.length text))) in Hres
      as (path & Hwalk & He); [|lia].
    exists path. split; [exact Hwalk|]. split; [exact He|].
    apply (ambiguous_at_cursor ign text clist path cursor Hwalk).
  - intros cursor. rewrite <- ambiguous_at_root. split.
    + intros Hres.
      apply (lookup_ambiguous_at ign (S (String.length text))) in Hres
        as (path & Hwalk & He); [|lia].
      symmetry in He. apply last_None in He. subst path. exact Hwalk.
    + intros Hwalk. apply (ambiguous_at_lookup ign text clist [] cursor Hwalk).
  - intros e cursor. split; [discriminate|]. intros c l t d. discriminate.
Qed.

(** C8 on the sample tree: at the root, two siblings are left for the token
    of "br"; below the prefix "info", two are left for "t", also when the
    prefix is reached through its alias "i". *)
Lemma ambiguous_lookup_shape_witness :
  lookup_cmd_1 true "  br" sample_root "" = Ambiguous None "br"
  ∧ lookup_cmd_1 true "info t" sample_root "" = Ambiguous (Some sample_info) "t"
  ∧ lookup_cmd_1 true "i  t x" sample_root ""
    = Ambiguous (Some sample_info) "t x".
Proof.
  split; [|split].
  - apply (proj1 (ambiguous_lookup_shape true "  br" sample_root "") [] "br").
    apply (ambiguous_here true "  br" sample_root (mk_word "br" "br" ""));
      [reflexivity | simpl; lia].
  - apply (proj1 (ambiguous_lookup_shape true "info t" sample_root "")
             [sample_info] "t").
    apply (ambiguous_below true "info t" sample_root
             (mk_word "info" "info t" " t") sample_info); try reflexivity.
    apply (ambiguous_here true " t" _ (mk_word "t" "t" ""));
      [reflexivity | simpl; lia].
  - apply (proj1 (ambiguous_lookup_shape true "i  t x" sample_root "")
             [sample_info] "t x").
    apply (ambiguous_below true "i  t x" sample_root
             (mk_word "i" "i  t x" "  t x")
             (Alias (mk_attrs "i" (Some 1%nat) true "-q") sample_info));
      try reflexivity.
    apply (ambiguous_here true "  t x" _ (mk_word "t" "t x" " x"));
      [reflexivity | simpl; lia].
Defined.

(** ** Command repetition *)

Import Repeat.

(** C9: with no saved command line, [repeat_previous] raises the usage error
    and leaves the repeat state, the saved line included, as it was; with
    a saved line, it returns that line and marks the running command as not
    repeating, the saved line staying in place, so that an empty input line
    after the repeating command replays nothing. *)
Theorem repeat_previous_spec (st : RepeatState) :
  (saved_line st = None → repeat_previous st = (Faults usage_error, st))
  ∧ (∀ line : string,
       saved_line st = Some line →
       ∃ st' : RepeatState,
         repeat_previous st = (Returns line, st')
         ∧ no_repeat st' = true
         ∧ saved_line st' = Some line
         ∧ replayed_on_empty_line st' = None).
Proof.
  split.
  - intros Hnone. unfold repeat_previous. rewrite Hnone. reflexivity.
  - intros line Hline. exists (set_no_repeat true st).
    unfold repeat_previous. rewrite Hline. repeat split. exact Hline.
Qed.

(** C9 at two states: no line saved yet, and "run" saved. *)
Lemma repeat_previous_spec_witness :
  repeat_previous (mk_repeat None false None false)
  = (Faults usage_error, mk_repeat None false None false)
  ∧ ∃ st' : RepeatState,
      repeat_previous (mk_repeat (Some "run") false None false)
      = (Returns "run", st')
      ∧ no_repeat st' = true
      ∧ saved_line st' = Some "run"
      ∧ replayed_on_empty_line st' = None.
Proof.
  split.
  - apply (proj1 (repeat_previous_spec (mk_repeat None false None false))).
    reflexivity.
  - apply (proj2 (repeat_previous_spec
                    (mk_repeat (Some "run") false None false)) "run").
    reflexivity.
Defined.

(** * Further properties of the settings *)

(** X1: [covers_type (t)] of a pack is true if and only if [t] is one of the
    pack's kinds, as the comment of [var_types_have_same_storage] says. *)
Theorem covers_type_membership (T : var_types) (Us : list var_types)
    (t : var_types) :
  covers_type T Us t = true ↔ t ∈ T :: Us.
Proof. apply covers_type_spec. Qed.

(** X2: [value] of a pack is true if and only if all its kinds are stored in
    one C++ type, which is then the pack's [type]. *)
Theorem have_same_storage_value_iff (T : var_types) (Us : list var_types) :
  have_same_storage_value T Us = true
  ↔ ∀ U, U ∈ T :: Us → var_types_storage U = have_same_storage_type T Us.
Proof.
  rewrite have_same_storage_value_spec, Forall_forall.
  unfold have_same_storage_type. split.
  - intros Hall U HU. apply elem_of_cons in HU as [-> | HU]; auto.
  - intros Hall U HU. apply Hall. apply elem_of_cons. auto.
Qed.

(** X3: the order in which a pack lists its kinds does not matter: two packs
    with the same kinds in another order have the same [value] and the same
    [covers_type], and, when [value] is true, the same [type]. *)
Theorem pack_order_irrelevant (T T' : var_types) (Us Us' : list var_types) :
  T :: Us ≡ₚ T' :: Us' →
  have_same_storage_value T Us = have_same_storage_value T' Us'
  ∧ (∀ t, covers_type T Us t = covers_type T' Us' t)
  ∧ (have_same_storage_value T Us = true →
     have_same_storage_type T Us = have_same_storage_type T' Us').
Proof.
  intros Hperm.
  assert (Hin : ∀ U, U ∈ T :: Us ↔ U ∈ T' :: Us')
    by (intros U; rewrite Hperm; reflexivity).
  assert (Hval : have_same_storage_value T Us = true
                 ↔ have_same_storage_value T' Us' = true).
  { rewrite !have_same_storage_value_iff. unfold have_same_storage_type.
    split; intros Hall U HU.
    - transitivity (var_types_storage T).
      + apply Hall, Hin, HU.
      + symmetry. apply Hall, Hin. left.
    - transitivity (var_types_storage T').
      + apply Hall, Hin, HU.
      + symmetry. apply Hall, Hin. left. }
  split; [|split].
  - destruct (have_same_storage_value T Us),
      (have_same_storage_value T' Us'); try reflexivity.
    + symmetry. apply Hval. reflexivity.
    + apply Hval. reflexivity.
  - intros t.
    pose proof (covers_type_spec T Us t) as H1.
    pose proof (covers_type_spec T' Us' t) as H2.
    rewrite (Hin t) in H1.
    destruct (covers_type T Us t), (covers_type T' Us' t); try reflexivity.
    + symmetry. apply H2, H1. reflexivity.
    + apply H1, H2. reflexivity.
  - intros Hv. apply have_same_storage_value_iff with (U := T') in Hv.
    + symmetry. exact Hv.
    + apply Hin. left.
Qed.

(** X3 on the two orders of the pack of [int]-stored kinds. *)
Lemma pack_order_irrelevant_witness :
  have_same_storage_value var_integer [var_zinteger; var_zuinteger_unlimited]
  = have_same_storage_value var_zuinteger_unlimited [var_integer; var_zinteger]
  ∧ (∀ t, covers_type var_integer [var_zinteger; var_zuinteger_unlimited] t
          = covers_type var_zuinteger_unlimited [var_integer; var_zinteger] t).
Proof.
  assert (Hperm : [var_integer; var_zinteger; var_zuinteger_unlimited]
                  ≡ₚ [var_zuinteger_unlimited; var_integer; var_zinteger]).
  { change ([var_integer; var_zinteger] ++ [var_zuinteger_unlimited]
            ≡ₚ [var_zuinteger_unlimited] ++ [var_integer; var_zinteger]).
    apply Permutation_app_comm. }
  destruct (pack_order_irrelevant _ _ _ _ Hperm) as (Hv & Hc & _).
  split; [exact Hv | exact Hc].
Defined.

(** X4: the round trip through a pack.  For a cell bound with [set_p<K>] to
    a variable of [K]'s storage type, [set] and then [get] through any
    instantiable pack that covers [K] return, and [get] returns the value
    that was set. *)
Theorem round_trip_through_pack (K T : var_types) (Us : list var_types)
    (p : pointer) (h : heap) (o : object)
    (v : storage_sem (have_same_storage_type T Us)) :
  have_same_storage_value T Us = true →
  covers_type T Us K = true →
  p ≠ nullptr →
  h !! p = Some o →
  projT1 o = var_types_storage K →
  ∃ (s : base_param_ref) (h' : heap),
    set_p K p fresh = Returns s
    ∧ set T Us v s h = Returns h'
    ∧ get T Us s h' = Returns v.
Proof. apply set_p_set_get_round_trip_pack. Qed.

(** X4 at the pack of two file-name kinds, for a cell bound as
    [var_filename]. *)
Lemma round_trip_through_pack_witness :
  ∃ (s : base_param_ref) (h' : heap),
    set_p var_filename 16%N fresh = Returns s
    ∧ set var_optional_filename [var_filename] "b.out" s sample_heap
      = Returns h'
    ∧ get var_optional_filename [var_filename] s h' = Returns "b.out".
Proof.
  apply (round_trip_through_pack var_filename var_optional_filename
           [var_filename] 16%N sample_heap (existT ty_string "a.out") "b.out").
  - reflexivity.
  - reflexivity.
  - discriminate.
  - reflexivity.
  - reflexivity.
Defined.

(** X5: [get_p] returns exactly when the pack covers the setting's kind and
    a cell is bound, and then returns that cell's pointer: it never returns
    a null pointer. *)
Theorem get_p_never_null (T : var_types) (Us : list var_types)
    (s : base_param_ref) (p : pointer) :
  get_p T Us s = Returns p
  ↔ covers_type T Us (m_var_type s) = true ∧ m_var s ≠ nullptr ∧ p = m_var s.
Proof.
  unfold get_p. rewrite <- empty_false.
  destruct (covers_type T Us (m_var_type s)); simpl.
  - destruct (empty s); simpl; split.
    + discriminate.
    + intros (_ & ? & _). discriminate.
    + intros [= <-]. auto.
    + intros (_ & _ & ->). reflexivity.
  - split; [discriminate | intros (? & _); discriminate].
Qed.

(** X6: accessors installed with [set_accessors<K>] are type-safe for every
    instantiable pack that covers [K]: [get] returns what the getter
    returns and [set] leaves the state the setter produces, whatever the
    cell pointer is; neither call faults. *)
Theorem set_accessors_then_access (K T : var_types) (Us : list var_types)
    (setter : setter_sig (var_types_storage K))
    (getter : getter_sig (var_types_storage K)) (s : base_param_ref)
    (h : heap) (v : storage_sem (have_same_storage_type T Us)) :
  have_same_storage_value T Us = true →
  covers_type T Us K = true →
  let s' := set_accessors K (Some setter) (Some getter) s in
  (∃ x, get T Us s' h = Returns x
        ∧ existT (have_same_storage_type T Us) x
          = existT (var_types_storage K) (getter h))
  ∧ (∃ (w : storage_sem (var_types_storage K)),
       set T Us v s' h = Returns (setter w h)
       ∧ existT (var_types_storage K) w
         = existT (have_same_storage_type T Us) v).
Proof.
  intros Hval Hcov s'.
  pose proof (covered_kind_storage T Us K Hval Hcov) as Hty.
  assert (Hcov' : covers_type T Us (m_var_type s') = true) by exact Hcov.
  rewrite (get_covered T Us s' h Hcov'), (set_covered T Us v s' h Hcov').
  subst s'. simpl. revert v.
  generalize dependent (have_same_storage_type T Us). intros ty <- v.
  rewrite !cast_to_same. simpl. split.
  - exists (getter h). split; reflexivity.
  - exists v. split; reflexivity.
Qed.

(** X6 on the sample accessors, asked for through the [bool] kind. *)
Lemma set_accessors_then_access_witness :
  (∃ x, get var_boolean [] sample_accessor_setting
          {[ 8%N := existT ty_int 5 ]} = Returns x
        ∧ existT (P := storage_sem) ty_bool x
          = existT ty_bool (sample_getter {[ 8%N := existT ty_int 5 ]}))
  ∧ (∃ w : bool,
       set var_boolean [] true sample_accessor_setting
         {[ 8%N := existT ty_int 5 ]}
       = Returns (sample_setter w {[ 8%N := existT ty_int 5 ]})
       ∧ existT (P := storage_sem) ty_bool w = existT ty_bool true).
Proof.
  apply (set_accessors_then_access var_boolean var_boolean []
           sample_setter sample_getter fresh _ true); reflexivity.
Defined.

(** X7: accessors survive a later [set_p] of another kind.  When a getter
    was installed for a kind stored in one C++ type and a cell is then
    bound with a kind stored in another, [get] for the new kind passes the
    kind check and calls the old getter through the union member of the
    new type: the call has no defined meaning. *)
Theorem stale_getter_after_set_p (K1 K2 : var_types)
    (setter : set_param_ftype K1) (getter : getter_sig (var_types_storage K1))
    (p : pointer) (h : heap) :
  var_types_storage K1 ≠ var_types_storage K2 →
  p ≠ nullptr →
  ∃ s, run_bindings [call_set_accessors K1 setter (Some getter);
                     call_set_p K2 p] fresh = Returns s
       ∧ get K2 [] s h = Faults undefined_behaviour.
Proof.
  intros Hty Hp. eexists. split.
  - simpl. rewrite set_p_returns by (exact Hp || reflexivity). reflexivity.
  - simpl. unfold get. simpl.
    rewrite bool_decide_eq_true_2 by reflexivity. simpl.
    unfold have_same_storage_type.
    rewrite (cast_to_other _ _ getter Hty). reflexivity.
Qed.

(** X7 for a [bool] getter followed by a cell bound as [var_integer]. *)
Lemma stale_getter_after_set_p_witness :
  ∃ s, run_bindings [call_set_accessors var_boolean None (Some sample_getter);
                     call_set_p var_integer 8%N] fresh = Returns s
       ∧ get var_integer [] s {[ 8%N := existT ty_int 5 ]}
         = Faults undefined_behaviour.
Proof.
  apply (stale_getter_after_set_p var_boolean var_integer None sample_getter
           8%N).
  - discriminate.
  - discriminate.
Defined.

(** X8: a [set] that goes to the memory cell writes that cell and nothing
    else: the new state is the old one with the cell replaced, every other
    variable keeps its value, no variable appears or disappears, and the
    cell keeps its type. *)
Theorem set_cell_frame (T : var_types) (Us : list var_types)
    (v : storage_sem (have_same_storage_type T Us)) (s : base_param_ref)
    (h h' : heap) :
  m_setter s = None →
  set T Us v s h = Returns h' →
  h' = <[m_var s := existT (have_same_storage_type T Us) v]> h
  ∧ (∀ q, q ≠ m_var s → h' !! q = h !! q)
  ∧ dom h' = dom h
  ∧ (∃ o, h !! m_var s = Some o ∧ projT1 o = have_same_storage_type T Us).
Proof.
  intros Hsetter Hset.
  destruct (covers_type T Us (m_var_type s)) eqn:Hcov.
  2:{ rewrite set_not_covered in Hset by exact Hcov. discriminate. }
  rewrite set_covered in Hset by exact Hcov.
  rewrite Hsetter in Hset. simpl in Hset.
  destruct (empty s); [discriminate|].
  unfold assign in Hset.
  destruct (h !! m_var s) as [o|] eqn:Ho; [|discriminate].
  destruct (decide (projT1 o = have_same_storage_type T Us)) as [Hty|];
    [|discriminate].
  injection Hset as <-.
  split; [reflexivity|]. split; [|split].
  - intros q Hq. apply lookup_insert_ne. congruence.
  - rewrite dom_insert_L. apply subseteq_union_1_L, singleton_subseteq_l.
    apply elem_of_dom_2 in Ho. exact Ho.
  - eauto.
Qed.

(** X8 on the sample file-name setting. *)
Lemma set_cell_frame_witness :
  m_setter sample_cell_setting = None
  ∧ set var_filename [] "b.out" sample_cell_setting sample_heap
    = Returns (<[16%N := existT ty_string "b.out"]> sample_heap)
  ∧ dom (<[16%N := existT ty_string "b.out"]> sample_heap : heap)
    = dom sample_heap.
Proof.
  destruct (set_cell_frame var_filename [] "b.out" sample_cell_setting
              sample_heap (<[16%N := existT ty_string "b.out"]> sample_heap)
              eq_refl eq_refl) as (_ & _ & H3 & _).
  split; [reflexivity|]. split; [reflexivity | exact H3].
Defined.

(** X9: two settings that refer to one variable, as the set and the show
    command of one parameter do, see each other's writes: after [set]
    through one of them, [get] through the other returns the value
    written. *)
Theorem shared_cell_set_get (T : var_types) (Us : list var_types)
    (v : storage_sem (have_same_storage_type T Us)) (s1 s2 : base_param_ref)
    (h h' : heap) :
  m_var s1 = m_var s2 →
  m_setter s1 = None →
  m_getter s2 = None →
  covers_type T Us (m_var_type s2) = true →
  set T Us v s1 h = Returns h' →
  get T Us s2 h' = Returns v.
Proof.
  intros Hvar Hsetter Hgetter Hcov2 Hset.
  destruct (set_cell_frame T Us v s1 h h' Hsetter Hset) as (-> & _ & _ & _).
  assert (He : empty s2 = false).
  { destruct (covers_type T Us (m_var_type s1)) eqn:Hcov.
    2:{ rewrite set_not_covered in Hset by exact Hcov. discriminate. }
    rewrite set_covered in Hset by exact Hcov.
    rewrite Hsetter in Hset. simpl in Hset.
    destruct (empty s1) eqn:He1; [discriminate|].
    unfold empty in *. rewrite <- Hvar. exact He1. }
  rewrite get_covered by exact Hcov2.
  rewrite Hgetter. simpl. rewrite He, <- Hvar. apply deref_assign.
Qed.

(** X9 for a [var_filename] setting and a [var_optional_filename] setting
    on the sample variable. *)
Lemma shared_cell_set_get_witness :
  set var_filename [var_optional_filename] "b.out" sample_cell_setting
    sample_heap
  = Returns (<[16%N := existT ty_string "b.out"]> sample_heap)
  ∧ get var_filename [var_optional_filename]
      (mk_param_ref var_optional_filename 16%N None None)
      (<[16%N := existT ty_string "b.out"]> sample_heap)
    = Returns "b.out".
Proof.
  split; [reflexivity|].
  apply (shared_cell_set_get var_filename [var_optional_filename] "b.out"
           sample_cell_setting
           (mk_param_ref var_optional_filename 16%N None None)
           sample_heap); reflexivity.
Defined.

Lemma operator_bool_true (s : base_param_ref) :
  operator_bool s = true
  ↔ empty s = false ∨ (m_getter s ≠ None ∧ m_setter s ≠ None).
Proof.
  unfold operator_bool. fold (has_accessor_pair s).
  rewrite orb_true_iff, has_accessor_pair_true, negb_true_iff. tauto.
Qed.

(** X10: which binding calls give a valid setting.  A setting returned by
    [set_p] is valid; a setting returned by [set_accessors] is valid if and
    only if both functions are given or a cell was bound before; the fresh
    setting is not valid. *)
Theorem validity_after_binding (K : var_types) (s : base_param_ref) :
  operator_bool fresh = false
  ∧ (∀ p s', set_p K p s = Returns s' → operator_bool s' = true)
  ∧ (∀ setter getter,
       operator_bool (set_accessors K setter getter s) = true
       ↔ (setter ≠ None ∧ getter ≠ None) ∨ m_var s ≠ nullptr).
Proof.
  split; [reflexivity|]. split.
  - intros p s' Hp.
    destruct (decide (p = nullptr)) as [Hnull|Hnull].
    { rewrite set_p_faults in Hp by auto. discriminate. }
    destruct (empty s) eqn:He.
    2:{ rewrite set_p_faults in Hp by auto. discriminate. }
    rewrite set_p_returns in Hp by assumption. injection Hp as <-.
    apply operator_bool_true. left. apply empty_false. exact Hnull.
  - intros setter getter.
    rewrite operator_bool_true, empty_false. simpl.
    destruct setter, getter; simpl; intuition congruence.
Qed.

(** * Further properties of the compile support *)

Lemma string_app_empty_r (a : string) : a +:+ EmptyString = a.
Proof.
  induction a as [|x a IH]; [reflexivity|].
  change (String x (a +:+ EmptyString) = String x a). f_equal. exact IH.
Qed.

Lemma array_get_lookup {A : Type} (array : list A) (n : nat) (a : A) :
  array !! n = Some a → array_get array (Z.of_nat n) = Returns a.
Proof.
  intros Ha. unfold array_get.
  rewrite bool_decide_eq_true_2 by lia. rewrite Nat2Z.id, Ha. reflexivity.
Qed.

(** The argument loop of [print_one_macro] writes the arguments that are
    left, separated by a comma and a space. *)
Lemma print_macro_args (macro : macro_definition) (rest pre : list string)
    (file : string) :
  macro_well_formed macro →
  argv macro = pre ++ rest →
  for_loop (length rest) (Z.of_nat (length pre)) (print_macro_arg macro) file
  = Returns (file +:+ String.concat ", " rest).
Proof.
  intros Hwf. unfold macro_well_formed in Hwf.
  revert pre file. induction rest as [|a rest IH]; intros pre file Hargv.
  - simpl. rewrite string_app_empty_r. reflexivity.
  - assert (Hlen : argc macro
                   = Z.of_nat (length pre) + 1 + Z.of_nat (length rest)).
    { rewrite Hwf, Hargv, length_app. simpl. lia. }
    assert (Hstep : print_macro_arg macro (Z.of_nat (length pre)) file
                    = Returns (if bool_decide (rest ≠ [])
                               then (file +:+ a) +:+ ", " else file +:+ a)).
    { unfold print_macro_arg.
      rewrite (array_get_lookup _ _ a)
        by (rewrite Hargv; apply list_lookup_middle; reflexivity).
      simpl. destruct rest as [|b rest].
      - rewrite bool_decide_eq_false_2 by (simpl in Hlen; lia).
        rewrite bool_decide_eq_false_2 by auto. reflexivity.
      - rewrite bool_decide_eq_true_2 by (simpl in Hlen; lia).
        rewrite bool_decide_eq_true_2 by discriminate. reflexivity. }
    change (for_loop (length (a :: rest)) (Z.of_nat (length pre))
              (print_macro_arg macro) file)
      with (print_macro_arg macro (Z.of_nat (length pre)) file
            ≫= for_loop (length rest) (Z.of_nat (length pre) + 1)
                 (print_macro_arg macro)).
    rewrite Hstep. simpl.
    replace (Z.of_nat (length pre) + 1) with (Z.of_nat (length (pre ++ [a])))
      by (rewrite length_app; simpl; lia).
    rewrite (IH (pre ++ [a])) by (rewrite Hargv, <- app_assoc; reflexivity).
    destruct rest as [|b rest].
    + simpl. rewrite string_app_empty_r. reflexivity.
    + rewrite bool_decide_eq_true_2 by discriminate.
      change (String.concat ", " (a :: b :: rest))
        with (a +:+ ", " +:+ String.concat ", " (b :: rest)).
      rewrite !string_app_assoc. reflexivity.
Qed.

Lemma print_one_macro_appends (name : string) (macro : macro_definition)
    (line : Z) (file : string) :
  macro_well_formed macro →
  print_one_macro name macro line file
  = Returns
      (if bool_decide (line = 0) then file
       else
         file +:+ "#ifndef " +:+ name +:+ newline +:+ "# define " +:+ name
         +:+ match kind macro with
             | macro_function_like =>
                 "(" +:+ String.concat ", " (argv macro) +:+ ")"
             | macro_object_like => ""
             end
         +:+ " " +:+ replacement macro +:+ newline +:+ "#endif" +:+ newline).
Proof.
  intros Hwf. unfold print_one_macro.
  destruct (bool_decide (line = 0)); [reflexivity|].
  pose proof (λ f, print_macro_args macro (argv macro) [] f Hwf eq_refl)
    as Hloop.
  change (Z.of_nat (length (@nil string))) with 0 in Hloop.
  destruct (kind macro).
  - simpl. rewrite !string_app_assoc. reflexivity.
  - rewrite Z.sub_0_r, Hwf, Nat2Z.id, Hloop. simpl.
    rewrite !string_app_assoc. reflexivity.
Qed.

(** X11: [print_one_macro] writes nothing for a macro defined on the command
    line (line 0); for any other macro whose argument count is the length
    of its argument array it appends the guarded definition, and the
    parameter list of a function-like macro is its arguments separated by
    a comma and a space, in parentheses, with no trailing separator. *)
Theorem print_one_macro_text (name : string) (macro : macro_definition)
    (line : Z) (file : string) :
  macro_well_formed macro →
  print_one_macro name macro line file
  = Returns
      (if bool_decide (line = 0) then file
       else
         file +:+ "#ifndef " +:+ name +:+ newline +:+ "# define " +:+ name
         +:+ match kind macro with
             | macro_function_like =>
                 "(" +:+ String.concat ", " (argv macro) +:+ ")"
             | macro_object_like => ""
             end
         +:+ " " +:+ replacement macro +:+ newline +:+ "#endif" +:+ newline).
Proof. apply print_one_macro_appends. Qed.

(** X11 on the macro [MAX(a, b)] defined at line 3. *)
Lemma print_one_macro_text_witness :
  print_one_macro "MAX"
    (mk_macro macro_function_like 2 ["a"; "b"] "((a) > (b) ? (a) : (b))") 3 ""
  = Returns ("#ifndef MAX" +:+ newline
             +:+ "# define MAX(a, b) ((a) > (b) ? (a) : (b))" +:+ newline
             +:+ "#endif" +:+ newline).
Proof.
  rewrite (print_one_macro_text "MAX"
             (mk_macro macro_function_like 2 ["a"; "b"]
                "((a) > (b) ? (a) : (b))") 3 "" eq_refl).
  reflexivity.
Defined.

Lemma mode_for_supported_size (size : Z) :
  size ∈ mode_sizes → ∃ mode, c_get_mode_for_size size = Returns (Some mode).
Proof.
  unfold mode_sizes. rewrite !elem_of_cons, elem_of_nil.
  intros [-> | [-> | [-> | [-> | []]]]]; eexists; reflexivity.
Qed.

Lemma integer_register_cases (r : register_desc) (stream : string) :
  reg_code r = TYPE_CODE_INT →
  (reg_length r ∈ mode_sizes →
   ∃ mode,
     c_get_mode_for_size (reg_length r) = Returns (Some mode)
     ∧ register_field r stream
       = Returns (stream +:+ "  "
                  +:+ (if reg_unsigned r then "unsigned " else "")
                  +:+ "int " +:+ regname r
                  +:+ " __attribute__ ((__mode__(__" +:+ mode +:+ "__)))"
                  +:+ ";" +:+ newline))
  ∧ (reg_length r ∉ mode_sizes →
     register_field r stream
     = Faults (internal_error "Invalid GCC mode size %d." (reg_length r))).
Proof.
  intros Hint. split.
  - intros Hsize. destruct (mode_for_supported_size _ Hsize) as [mode Hmode].
    exists mode. split; [exact Hmode|].
    unfold register_field. rewrite Hint, Hmode. simpl.
    destruct (reg_unsigned r); simpl; rewrite !string_app_assoc; reflexivity.
  - intros Hsize. unfold register_field.
    rewrite Hint, (c_get_mode_for_size_other _ Hsize). reflexivity.
Qed.

(** X12: a used integer register is written with a mode attribute when its
    size is 1, 2, 4 or 8, and stops the program with the internal error of
    [c_get_mode_for_size] otherwise; the array of bytes that the [switch]
    falls through to when [mode] is [NULL] is never written for an integer
    register. *)
Theorem integer_register_field (r : register_desc) (stream : string) :
  reg_code r = TYPE_CODE_INT →
  (reg_length r ∈ mode_sizes →
   ∃ mode,
     c_get_mode_for_size (reg_length r) = Returns (Some mode)
     ∧ register_field r stream
       = Returns (stream +:+ "  "
                  +:+ (if reg_unsigned r then "unsigned " else "")
                  +:+ "int " +:+ regname r
                  +:+ " __attribute__ ((__mode__(__" +:+ mode +:+ "__)))"
                  +:+ ";" +:+ newline))
  ∧ (reg_length r ∉ mode_sizes →
     register_field r stream
     = Faults (internal_error "Invalid GCC mode size %d." (reg_length r))).
Proof. apply integer_register_cases. Qed.

(** X12 on a 4-byte unsigned register and on a 16-byte integer register. *)
Lemma integer_register_field_witness :
  register_field (mk_register "__eflags" TYPE_CODE_INT 4 true) ""
  = Returns ("  unsigned int __eflags __attribute__ ((__mode__(__SI__)));"
             +:+ newline)
  ∧ register_field (mk_register "__wide" TYPE_CODE_INT 16 false) ""
    = Faults (internal_error "Invalid GCC mode size %d." 16).
Proof.
  split.
  - destruct (integer_register_field
                (mk_register "__eflags" TYPE_CODE_INT 4 true) "" eq_refl)
      as [Hok _].
    destruct Hok as (mode & Hmode & Hfield).
    + unfold mode_sizes. simpl. repeat constructor.
    + injection Hmode as <-. exact Hfield.
  - apply (integer_register_field
             (mk_register "__wide" TYPE_CODE_INT 16 false) "" eq_refl).
    unfold mode_sizes. simpl. rewrite !not_elem_of_cons.
    repeat split; try discriminate. apply not_elem_of_nil.
Defined.

Lemma register_field_returns (r : register_desc) (stream : string) :
  register_supported r ↔ ∃ out, register_field r stream = Returns out.
Proof.
  unfold register_supported.
  destruct (reg_code r) eqn:Hcode.
  - split; [|intros _; discriminate].
    intros _. unfold register_field. rewrite Hcode. simpl. eauto.
  - destruct (decide (reg_length r ∈ mode_sizes)) as [Hin|Hout].
    + destruct (proj1 (integer_register_cases r stream Hcode) Hin)
        as (mode & _ & ->). split; eauto.
    + rewrite (proj2 (integer_register_cases r stream Hcode) Hout).
      split; [intros H; exfalso; auto | intros [out Hout']; discriminate].
  - split; [|intros _; discriminate].
    intros _. unfold register_field. rewrite Hcode. simpl. eauto.
Qed.

Lemma used_registers_cons (u : Z) (us : list Z) (r : register_desc)
    (regs : list register_desc) :
  used_registers (u :: us) (r :: regs)
  = if bool_decide (u ≠ 0) then r :: used_registers us regs
    else used_registers us regs.
Proof.
  unfold used_registers. simpl zip.
  destruct (bool_decide_reflect (u ≠ 0)) as [Hu|Hu].
  - rewrite filter_cons_True by exact Hu. reflexivity.
  - rewrite filter_cons_False by exact Hu. reflexivity.
Qed.

(** The register loop returns exactly when every register it finds marked
    is supported; it then reports [seen] when it found one. *)
Lemma register_loop_returns (used : list Z) (regs : list register_desc) :
  ∀ (n : nat) (st : string * bool),
    (length regs ≤ length (drop n used))%nat →
    (Forall register_supported (used_registers (drop n used) regs)
     ↔ ∃ st', register_loop used (Z.of_nat n) regs st = Returns st')
    ∧ (used_registers (drop n used) regs = [] →
       register_loop used (Z.of_nat n) regs st = Returns st).
Proof.
  induction regs as [|r regs IH]; intros n st Hlen.
  - simpl. split; [|reflexivity].
    unfold used_registers. rewrite zip_with_nil_r. simpl.
    split; [eauto | constructor].
  - destruct (drop n used) as [|u us] eqn:Hdrop; [simpl in Hlen; lia|].
    assert (Hu : used !! n = Some u).
    { rewrite <- (Nat.add_0_r n), <- lookup_drop, Hdrop. reflexivity. }
    assert (Hus : drop (S n) used = us).
    { rewrite (drop_S _ _ _ Hu) in Hdrop. congruence. }
    assert (Hlen' : (length regs ≤ length (drop (S n) used))%nat)
      by (rewrite Hus; simpl in Hlen; lia).
    change (register_loop used (Z.of_nat n) (r :: regs) st)
      with (array_get used (Z.of_nat n)
            ≫= λ used0,
                 (if bool_decide (used0 ≠ 0)
                  then stream ← register_field r st.1; mret (stream, true)
                  else mret st)
                 ≫= register_loop used (Z.of_nat n + 1) regs).
    rewrite (array_get_lookup _ _ _ Hu). simpl.
    replace (Z.of_nat n + 1) with (Z.of_nat (S n)) by lia.
    rewrite used_registers_cons, <- Hus.
    destruct (bool_decide (u ≠ 0)).
    + split; [|discriminate].
      rewrite Forall_cons, (register_field_returns r st.1).
      split.
      * intros [[out Hout] Hrest]. rewrite Hout. simpl.
        apply (IH (S n) (out, true) Hlen'). exact Hrest.
      * intros [st' Hst'].
        destruct (register_field r st.1) as [out|f] eqn:Hout;
          [|discriminate]. simpl in Hst'.
        split; [eauto|]. apply (IH (S n) (out, true) Hlen'). eauto.
    + simpl. apply (IH (S n) st Hlen').
Qed.

Lemma register_struct_returns_iff (m : compile_macros)
    (gdbarch : list register_desc) (used : list Z) (stream : string) :
  (length gdbarch ≤ length used)%nat →
  (Forall register_supported (used_registers used gdbarch)
   ↔ ∃ out, generate_register_struct m gdbarch (Some used) stream
            = Returns out).
Proof.
  intros Hlen. unfold generate_register_struct.
  destruct (register_loop_returns used gdbarch 0
              (stream +:+ "struct " +:+ COMPILE_I_SIMPLE_REGISTER_STRUCT_TAG m
               +:+ " {" +:+ newline, false) Hlen) as [Hiff _].
  rewrite drop_0 in Hiff. change (Z.of_nat 0) with 0 in Hiff.
  rewrite Hiff. split.
  - intros [[out seen] ->]. simpl. eauto.
  - intros [out Hout].
    destruct (register_loop used 0 gdbarch _) as [st'|f]; [eauto|discriminate].
Qed.

(** X13: when the byte array has an entry for every register,
    [generate_register_struct] returns if and only if every register that
    the array marks as used is a pointer, an integer of size 1, 2, 4 or 8,
    or neither a pointer nor an integer. *)
Theorem generate_register_struct_returns (m : compile_macros)
    (gdbarch : list register_desc) (used : list Z) (stream : string) :
  (length gdbarch ≤ length used)%nat →
  (Forall register_supported (used_registers used gdbarch)
   ↔ ∃ out, generate_register_struct m gdbarch (Some used) stream
            = Returns out).
Proof. apply register_struct_returns_iff. Qed.

(** X13 on the sample registers, all four marked as used. *)
Lemma generate_register_struct_returns_witness :
  ∃ out, generate_register_struct sample_macros sample_arch
           (Some [1; 1; 1; 1]) "" = Returns out.
Proof.
  apply (generate_register_struct_returns sample_macros sample_arch
           [1; 1; 1; 1] "").
  - simpl. lia.
  - unfold used_registers, sample_arch, register_supported, mode_sizes.
    simpl. repeat constructor; simpl; intros; try discriminate;
      repeat constructor.
Defined.

Lemma register_struct_dummy_text (m : compile_macros)
    (gdbarch : list register_desc) (registers_used : option (list Z))
    (stream : string) :
  match registers_used with
  | Some used =>
      (length gdbarch ≤ length used)%nat ∧ used_registers used gdbarch = []
  | None => True
  end →
  generate_register_struct m gdbarch registers_used stream
  = Returns (stream +:+ "struct " +:+ COMPILE_I_SIMPLE_REGISTER_STRUCT_TAG m
             +:+ " {" +:+ newline
             +:+ "  char " +:+ COMPILE_I_SIMPLE_REGISTER_DUMMY m +:+ ";"
             +:+ newline +:+ "};" +:+ newline +:+ newline).
Proof.
  intros Hused. unfold generate_register_struct.
  destruct registers_used as [used|].
  - destruct Hused as [Hlen Hnone].
    destruct (register_loop_returns used gdbarch 0
                (stream +:+ "struct "
                 +:+ COMPILE_I_SIMPLE_REGISTER_STRUCT_TAG m
                 +:+ " {" +:+ newline, false) Hlen) as [_ Hsame].
    rewrite drop_0 in Hsame. change (Z.of_nat 0) with 0 in Hsame.
    rewrite (Hsame Hnone). simpl.
    rewrite !string_app_assoc. reflexivity.
  - simpl. rewrite !string_app_assoc. reflexivity.
Qed.

(** X14: with no register array, or with an array that marks no register,
    the structure that [generate_register_struct] writes has the dummy
    member alone. *)
Theorem generate_register_struct_dummy (m : compile_macros)
    (gdbarch : list register_desc) (registers_used : option (list Z))
    (stream : string) :
  match registers_used with
  | Some used =>
      (length gdbarch ≤ length used)%nat ∧ used_registers used gdbarch = []
  | None => True
  end →
  generate_register_struct m gdbarch registers_used stream
  = Returns (stream +:+ "struct " +:+ COMPILE_I_SIMPLE_REGISTER_STRUCT_TAG m
             +:+ " {" +:+ newline
             +:+ "  char " +:+ COMPILE_I_SIMPLE_REGISTER_DUMMY m +:+ ";"
             +:+ newline +:+ "};" +:+ newline +:+ newline).
Proof. apply register_struct_dummy_text. Qed.

(** X14 on the sample registers with none of them marked. *)
Lemma generate_register_struct_dummy_witness :
  generate_register_struct sample_macros sample_arch (Some [0; 0; 0; 0]) ""
  = Returns ("struct __gdb_regs {" +:+ newline +:+ "  char _dummy;" +:+ newline
             +:+ "};" +:+ newline +:+ newline).
Proof.
  apply (generate_register_struct_dummy sample_macros sample_arch
           (Some [0; 0; 0; 0]) "").
  split; [simpl; lia | reflexivity].
Defined.

Lemma print_macros_returns (macros : list macro_entry) (file : string) :
  Forall (λ e, macro_well_formed (macro_def e)) macros →
  ∃ out, print_macros macros file = Returns out.
Proof.
  intros Hwf. revert file.
  induction Hwf as [|e macros He _ IH]; intros file; simpl; [eauto|].
  rewrite (print_one_macro_appends _ _ _ _ He). simpl. apply IH.
Qed.

(** X15: for the raw scope the C and the C++ program are the same text: the
    macro definitions, the line directive, the user's input and a newline,
    then a semicolon line unless the input has a newline in it.  Nothing
    of the architecture, the registers or the variable locations is
    written, and no wrapper, pragma or brace. *)
Theorem compute_raw_scope (m : compile_macros) (ctx : compute_context)
    (input : string) :
  scope ctx = COMPILE_I_RAW_SCOPE →
  c_compute_program m ctx input = cplus_compute_program m ctx input
  ∧ c_compute_program m ctx input
    = (buf ← write_macro_definitions (macro_scope ctx) "";
       mret (buf +:+ "#line 1 " +:+ double_quote +:+ "gdb command line"
             +:+ double_quote +:+ newline +:+ input +:+ newline
             +:+ (if has_newline input then "" else ";" +:+ newline))).
Proof.
  intros Hscope.
  unfold c_compute_program, cplus_compute_program, compute.
  rewrite Hscope. simpl.
  destruct (write_macro_definitions (macro_scope ctx) "") as [buf|f];
    simpl; [|split; reflexivity].
  unfold c_add_input, cplus_add_input.
  split; [reflexivity|].
  destruct (has_newline input); simpl;
    rewrite ?string_app_assoc, ?string_app_empty_r; reflexivity.
Qed.

(** X15 on a raw program with no macro in scope. *)
Lemma compute_raw_scope_witness :
  c_compute_program sample_macros
    (mk_context COMPILE_I_RAW_SCOPE sample_arch "" (Some [1; 1; 1; 1]) None)
    "int f (void) { return 1; }"
  = Returns ("#line 1 " +:+ double_quote +:+ "gdb command line"
             +:+ double_quote +:+ newline +:+ "int f (void) { return 1; }"
             +:+ newline +:+ ";" +:+ newline).
Proof.
  rewrite (proj2 (compute_raw_scope sample_macros
                    (mk_context COMPILE_I_RAW_SCOPE sample_arch ""
                       (Some [1; 1; 1; 1]) None)
                    "int f (void) { return 1; }" eq_refl)).
  reflexivity.
Defined.

Lemma mode_loop_returns (buf : string) :
  mode_loop buf
  = Returns (buf +:+ typedef_line "QI" +:+ typedef_line "HI"
             +:+ typedef_line "SI" +:+ typedef_line "DI").
Proof. unfold mode_loop. simpl. rewrite !string_app_assoc. reflexivity. Qed.

Lemma generate_register_struct_ok (m : compile_macros) (ctx : compute_context)
    (stream : string) :
  registers_ok ctx →
  ∃ out, generate_register_struct m (arch ctx) (registers_used ctx) stream
         = Returns out.
Proof.
  unfold registers_ok. intros Hok.
  destruct (registers_used ctx) as [used|].
  - destruct Hok as [Hlen Hsup].
    apply (register_struct_returns_iff m (arch ctx) used stream Hlen).
    exact Hsup.
  - rewrite register_struct_dummy_text by exact I. eauto.
Qed.

(** X16: [compute] never returns a program for a scope other than the four
    that the policies name: the C and the C++ program stop, and when the
    register structure can be written they stop at the assertion of the
    code header. *)
Theorem compute_unknown_scope (m : compile_macros) (ctx : compute_context)
    (input : string) :
  scope ctx = COMPILE_I_INVALID_SCOPE →
  (∃ f, c_compute_program m ctx input = Faults f)
  ∧ (∃ f, cplus_compute_program m ctx input = Faults f)
  ∧ (registers_ok ctx →
     c_compute_program m ctx input = Faults assertion_failed
     ∧ cplus_compute_program m ctx input = Faults assertion_failed).
Proof.
  intros Hscope.
  unfold c_compute_program, cplus_compute_program, compute.
  rewrite Hscope.
  rewrite bool_decide_eq_true_2 by discriminate.
  rewrite mode_loop_returns.
  rewrite !outcome_bind_returns.
  match goal with
  | |- context [generate_register_struct m (arch ctx) (registers_used ctx) ?b]
    => generalize b; intros prelude
  end.
  destruct (generate_register_struct m (arch ctx) (registers_used ctx) prelude)
    as [buf|f] eqn:Hgen; simpl.
  - repeat split; eauto.
  - split; [eauto|]. split; [eauto|].
    intros Hok.
    destruct (generate_register_struct_ok m ctx prelude Hok) as [out Hout].
    congruence.
Qed.

(** X16 for an invalid scope with no register array. *)
Lemma compute_unknown_scope_witness :
  c_compute_program sample_macros
    (mk_context COMPILE_I_INVALID_SCOPE sample_arch "" None None) "x"
  = Faults assertion_failed
  ∧ cplus_compute_program sample_macros
      (mk_context COMPILE_I_INVALID_SCOPE sample_arch "" None None) "x"
    = Faults assertion_failed.
Proof.
  apply (compute_unknown_scope sample_macros
           (mk_context COMPILE_I_INVALID_SCOPE sample_arch "" None None) "x"
           eq_refl).
  exact I.
Defined.

(** X17: for the three scopes that wrap the user's code in a function, when
    the registers marked as used are supported and the macros in scope are
    well formed, [compute] returns a program, for C and for C++.  The
    program ends by closing the user's block and then the wrapper function;
    the C++ program pops the user-expression pragma between the two, the C
    program writes nothing there. *)
Theorem compute_wrapped_scope (m : compile_macros) (ctx : compute_context)
    (input : string) :
  wraps_in_function (scope ctx) = true →
  registers_ok ctx →
  macros_ok ctx →
  (∃ body,
     c_compute_program m ctx input
     = Returns (body +:+ "}" +:+ newline +:+ "}" +:+ newline))
  ∧ (∃ body,
       cplus_compute_program m ctx input
       = Returns (body +:+ "}" +:+ newline
                  +:+ "#pragma GCC pop_user_expression" +:+ newline
                  +:+ "}" +:+ newline)).
Proof.
  intros Hwrap Hregs Hmacros.
  assert (Hmac : ∀ file, ∃ out,
            write_macro_definitions (macro_scope ctx) file = Returns out).
  { intros file. unfold macros_ok in Hmacros. unfold write_macro_definitions.
    destruct (macro_scope ctx) as [macros|]; [|eauto].
    apply print_macros_returns, Hmacros. }
  assert (Hraw : scope ctx ≠ COMPILE_I_RAW_SCOPE)
    by (intros Heq; rewrite Heq in Hwrap; discriminate).
  unfold c_compute_program, cplus_compute_program, compute.
  rewrite Hwrap, (bool_decide_eq_true_2 _ Hraw), mode_loop_returns.
  rewrite !outcome_bind_returns.
  match goal with
  | |- context [generate_register_struct m (arch ctx) (registers_used ctx) ?b]
    => destruct (generate_register_struct_ok m ctx b Hregs) as [regs ->]
  end.
  rewrite !outcome_bind_returns.
  split.
  - assert (∃ hdr, add_code_header (c_compile_program m) (scope ctx) regs
                   = Returns hdr) as [hdr ->]
      by (destruct (scope ctx); try discriminate; simpl; eauto).
    rewrite outcome_bind_returns.
    destruct (Hmac (push_user_expression (c_compile_program m)
                      (hdr +:+ var_locations ctx))) as [mac ->].
    rewrite outcome_bind_returns.
    assert (Hfoot : ∀ buf, add_code_footer (c_compile_program m) (scope ctx) buf
                           = Returns (buf +:+ "}" +:+ newline))
      by (intros buf; destruct (scope ctx); try discriminate; reflexivity).
    rewrite Hfoot. simpl pop_user_expression. unfold pop_user_expression_nop.
    match goal with
    | |- ∃ body, Returns ((?Y +:+ ?a) +:+ ?b) = _ =>
        exists Y; rewrite (string_app_assoc Y a b); reflexivity
    end.
  - assert (∃ hdr, add_code_header (cplus_compile_program m) (scope ctx) regs
                   = Returns hdr) as [hdr ->]
      by (destruct (scope ctx); try discriminate; simpl; eauto).
    rewrite outcome_bind_returns.
    destruct (Hmac (push_user_expression (cplus_compile_program m)
                      (hdr +:+ var_locations ctx))) as [mac ->].
    rewrite outcome_bind_returns.
    assert (Hfoot : ∀ buf,
              add_code_footer (cplus_compile_program m) (scope ctx) buf
              = Returns (buf +:+ "}" +:+ newline))
      by (intros buf; destruct (scope ctx); try discriminate; reflexivity).
    rewrite Hfoot. simpl pop_user_expression.
    unfold cplus_pop_user_expression.
    match goal with
    | |- ∃ body, Returns (((?Y +:+ ?a) +:+ ?b) +:+ ?c) = _ =>
        exists Y;
        rewrite (string_app_assoc (Y +:+ a) b c), (string_app_assoc Y a (b +:+ c));
        reflexivity
    end.
Qed.

(** X17 for the simple scope on the sample registers. *)
Lemma compute_wrapped_scope_witness :
  (∃ body,
     c_compute_program sample_macros
       (mk_context COMPILE_I_SIMPLE_SCOPE sample_arch "" (Some [1; 1; 1; 1])
          None) "x = 1"
     = Returns (body +:+ "}" +:+ newline +:+ "}" +:+ newline))
  ∧ (∃ body,
       cplus_compute_program sample_macros
         (mk_context COMPILE_I_SIMPLE_SCOPE sample_arch ""
            (Some [1; 1; 1; 1]) None) "x = 1"
       = Returns (body +:+ "}" +:+ newline
                  +:+ "#pragma GCC pop_user_expression" +:+ newline
                  +:+ "}" +:+ newline)).
Proof.
  apply (compute_wrapped_scope sample_macros
           (mk_context COMPILE_I_SIMPLE_SCOPE sample_arch ""
              (Some [1; 1; 1; 1]) None) "x = 1").
  - reflexivity.
  - split; [simpl; lia|].
    unfold used_registers, sample_arch, register_supported, mode_sizes.
    simpl. repeat constructor; simpl; intros; try discriminate;
      repeat constructor.
  - exact I.
Defined.

(** X18: [get_compile_context] fails only with the errors it raises for the
    user: its assertion on the loaded function cannot fail, since
    [load_libcompile] raises an error instead of returning [NULL].  The
    function found is kept: a call that starts with it does not consult
    the library again, and no call forgets it; a call that returns a
    context leaves a function in place. *)
Theorem get_compile_context_loads_once {handle gcc_context : Type}
    (gdb_dlopen : string → outcome handle)
    (gdb_dlsym : handle → string → option (@fe_context_function gcc_context))
    (fe_libcc fe_context : string) (base_version api_version : Z)
    (func : option (@fe_context_function gcc_context)) :
  let call := get_compile_context gdb_dlopen gdb_dlsym fe_libcc fe_context
                base_version api_version in
  (∀ f, (call func).1 = Faults f →
        f = usage_error ∨ ∃ lib_error, gdb_dlopen fe_libcc = Faults lib_error
                                       ∧ f = lib_error)
  ∧ (∀ f, func = Some f →
          (call func).2 = Some f
          ∧ ∀ (handle' : Type) (gdb_dlopen' : string → outcome handle')
              (gdb_dlsym' : handle' → string → option fe_context_function),
              get_compile_context gdb_dlopen' gdb_dlsym' fe_libcc fe_context
                base_version api_version func
              = call func)
  ∧ (∀ context, (call func).1 = Returns context →
                ∃ f, (call func).2 = Some f
                     ∧ f base_version api_version = Some context).
Proof.
  intros call. subst call. unfold get_compile_context, load_libcompile.
  destruct func as [f0|]; simpl.
  - split; [|split].
    + intros f. destruct (f0 base_version api_version); simpl;
        [discriminate | intros [= <-]; auto].
    + intros f [= <-]. split; [|reflexivity].
      destruct (f0 base_version api_version); reflexivity.
    + intros context.
      destruct (f0 base_version api_version) eqn:Hctx; simpl;
        [intros [= <-]; eauto | discriminate].
  - split; [|split; [discriminate|]].
    + intros f. destruct (gdb_dlopen fe_libcc) as [h|e]; simpl.
      * destruct (gdb_dlsym h fe_context) as [f1|]; simpl.
        -- destruct (f1 base_version api_version); simpl;
             [discriminate | intros [= <-]; auto].
        -- intros [= <-]; auto.
      * intros [= <-]. eauto.
    + intros context. destruct (gdb_dlopen fe_libcc) as [h|e]; simpl;
        [|discriminate].
      destruct (gdb_dlsym h fe_context) as [f1|]; simpl; [|discriminate].
      destruct (f1 base_version api_version) eqn:Hctx; simpl;
        [intros [= <-]; eauto | discriminate].
Qed.

(** X18 for a library whose symbol is missing, and for a function already
    found. *)
Lemma get_compile_context_loads_once_witness :
  (get_compile_context (handle := unit) (gcc_context := nat)
     (λ _, Returns tt) (λ _ _, None) "libcc1.so" "gcc_c_fe_context" 0 0 None).1
  = Faults usage_error
  ∧ (get_compile_context (handle := unit) (gcc_context := nat)
       (λ _, Faults usage_error) (λ _ _, None) "libcc1.so" "gcc_c_fe_context"
       0 0 (Some (λ _ _, Some 7%nat))).1
    = Returns 7%nat.
Proof.
  split; [reflexivity|].
  destruct (get_compile_context_loads_once (handle := unit)
              (gcc_context := nat) (λ _, Faults usage_error) (λ _ _, None)
              "libcc1.so" "gcc_c_fe_context" 0 0
              (Some (λ _ _, Some 7%nat))) as (_ & Hkeep & _).
  destruct (Hkeep _ eq_refl) as [_ Hsame].
  rewrite <- (Hsame unit (λ _, Returns tt) (λ _ _, None)). reflexivity.
Defined.

Lemma print_macros_appends (macros : list macro_entry) :
  Forall (λ e, macro_well_formed (macro_def e)) macros →
  ∃ text,
    (∀ file, print_macros macros file = Returns (file +:+ text))
    ∧ (∀ file,
         print_macros (filter (λ e, macro_line e ≠ 0) macros) file
         = Returns (file +:+ text)).
Proof.
  induction 1 as [|e macros He Hwf (text & IH1 & IH2)].
  - exists "". split; intros file; simpl; rewrite string_app_empty_r;
      reflexivity.
  - destruct (decide (macro_line e = 0)) as [Hline|Hline].
    + exists text. split; intros file.
      * simpl. rewrite (print_one_macro_appends _ _ _ _ He).
        rewrite bool_decide_eq_true_2 by exact Hline. simpl. apply IH1.
      * rewrite filter_cons_False by (intros Hne; apply Hne, Hline).
        apply IH2.
    + pose proof (print_one_macro_appends (macro_name e) _ (macro_line e) "" He)
        as Hone.
      rewrite bool_decide_eq_false_2 in Hone by exact Hline.
      simpl in Hone.
      match type of Hone with
      | _ = Returns ?t => exists (t +:+ text)
      end.
      split; intros file.
      * simpl. rewrite (print_one_macro_appends _ _ _ _ He).
        rewrite bool_decide_eq_false_2 by exact Hline. simpl.
        rewrite IH1, !string_app_assoc. reflexivity.
      * rewrite filter_cons_True by exact Hline. simpl.
        rewrite (print_one_macro_appends _ _ _ _ He).
        rewrite bool_decide_eq_false_2 by exact Hline. simpl.
        rewrite IH2, !string_app_assoc. reflexivity.
Qed.

(** X19: [write_macro_definitions] only appends: for well-formed macros the
    text it adds does not depend on what the file already holds, and the
    macros defined on the command line (line 0) add nothing to it. *)
Theorem write_macro_definitions_appends (scope : option (list macro_entry)) :
  match scope with
  | Some macros => Forall (λ e, macro_well_formed (macro_def e)) macros
  | None => True
  end →
  ∃ text,
    (∀ file, write_macro_definitions scope file = Returns (file +:+ text))
    ∧ (∀ file,
         write_macro_definitions
           (filter (λ e, macro_line e ≠ 0) <$> scope) file
         = Returns (file +:+ text)).
Proof.
  destruct scope as [macros|]; simpl.
  - apply print_macros_appends.
  - intros _. exists "". split; intros file; rewrite string_app_empty_r;
      reflexivity.
Qed.

(** X19 for a macro from the command line followed by one from line 5. *)
Lemma write_macro_definitions_appends_witness :
  ∃ text,
    (∀ file,
       write_macro_definitions
         (Some [mk_macro_entry "DEBUG" (mk_macro macro_object_like 0 [] "1") 0;
                mk_macro_entry "N" (mk_macro macro_object_like 0 [] "10") 5])
         file
       = Returns (file +:+ text))
    ∧ (∀ file,
         write_macro_definitions
           (Some [mk_macro_entry "N" (mk_macro macro_object_like 0 [] "10") 5])
           file
         = Returns (file +:+ text)).
Proof.
  apply (write_macro_definitions_appends
           (Some [mk_macro_entry "DEBUG" (mk_macro macro_object_like 0 [] "1") 0;
                  mk_macro_entry "N" (mk_macro macro_object_like 0 [] "10") 5])).
  repeat constructor.
Defined.
